(** * Gaussian Naive Bayes ([scikits/learn/naive_bayes.py])

    The class [GNB] is embedded as pure functions over an explicit estimator
    state.  Conventions of the embedding:

    - a float64 array holds real numbers: in [fit], [predict_proba] and
      [predict] arithmetic on finite values is the exact arithmetic of [R].
      The IEEE special values that the code can produce from finite data
      ([log 0 = -inf], [inf/inf = nan], [0/0 = nan]) are kept, as the type
      [xreal];
    - the range of float64 is added in [predict_proba_float64] and
      [predict_float64]: the same code with [float64.exp] and [float64.sum],
      where an exponential that underflows is 0 and one that overflows is
      [+inf].  Properties that depend on the size of the scores are stated
      on these two;
    - the rounding of float64 is added in the module [binary64]: [fit] once
      more, on the binary64 numbers of Rocq, where every operation is
      rounded;
    - labels are integers ([Z]), as in the class docstring;
    - a 2-D array is its shape's second component together with its rows;
    - an exception is a value of [exn]; a call returns [Ok v] or [Raise e];
    - an instance of [GNB] is [None] until [fit] has stored its four
      attributes, and [Some] of them afterwards. *)

From Stdlib Require Import String.
From Stdlib Require Import Reals Lra Lia ZArith List Bool.
From Stdlib Require Import Permutation Sorted.
From Corelib Require PrimFloat.
Import ListNotations.

Open Scope R_scope.

(** ** Exceptions *)

Inductive exn : Type :=
| AttributeError (attr : string)
| IndexError
| ValueError.

Inductive result (A : Type) : Type :=
| Ok (a : A)
| Raise (e : exn).

Arguments Ok {A} a.
Arguments Raise {A} e.

Definition bind {A B : Type} (c : result A) (k : A -> result B) : result B :=
  match c with
  | Ok a => k a
  | Raise e => Raise e
  end.

Notation "x <- c ;; k" := (bind c (fun x => k))
  (at level 61, c at next level, right associativity).

(** [l[i]] for [0 <= i]: Python raises IndexError out of range. *)
Definition getitem {A : Type} (l : list A) (i : nat) : result A :=
  match nth_error l i with
  | Some v => Ok v
  | None => Raise IndexError
  end.

Fixpoint mapM {A B : Type} (f : A -> result B) (l : list A) : result (list B) :=
  match l with
  | [] => Ok []
  | a :: l' => b <- f a ;; bs <- mapM f l' ;; Ok (b :: bs)
  end.

(** ** Extended reals: finite values and the IEEE special values *)

Inductive xreal : Type :=
| Fin (r : R)
| PInf
| NInf
| NaN.

Definition Rltb (a b : R) : bool := if Rlt_dec a b then true else false.
Definition Rleb (a b : R) : bool := if Rle_dec a b then true else false.

Definition xopp (a : xreal) : xreal :=
  match a with
  | Fin r => Fin (- r)
  | PInf => NInf
  | NInf => PInf
  | NaN => NaN
  end.

Definition xadd (a b : xreal) : xreal :=
  match a, b with
  | NaN, _ | _, NaN => NaN
  | Fin x, Fin y => Fin (x + y)
  | PInf, NInf | NInf, PInf => NaN
  | PInf, _ | _, PInf => PInf
  | NInf, _ | _, NInf => NInf
  end.

Definition xsub (a b : xreal) : xreal := xadd a (xopp b).

(** An infinity of sign [pos] multiplied by the finite [r]. *)
Definition inf_times (pos : bool) (r : R) : xreal :=
  if Rltb 0 r then (if pos then PInf else NInf)
  else if Rltb r 0 then (if pos then NInf else PInf)
  else NaN.

Definition xmul (a b : xreal) : xreal :=
  match a, b with
  | NaN, _ | _, NaN => NaN
  | Fin x, Fin y => Fin (x * y)
  | PInf, Fin y => inf_times true y
  | NInf, Fin y => inf_times false y
  | Fin x, PInf => inf_times true x
  | Fin x, NInf => inf_times false x
  | PInf, PInf | NInf, NInf => PInf
  | PInf, NInf | NInf, PInf => NInf
  end.

(** Division; a zero divisor counts as [+0]. *)
Definition xdiv (a b : xreal) : xreal :=
  match a, b with
  | NaN, _ | _, NaN => NaN
  | Fin x, Fin y =>
      if Rltb 0 y || Rltb y 0 then Fin (x / y)
      else if Rltb 0 x then PInf
      else if Rltb x 0 then NInf
      else NaN
  | Fin _, PInf | Fin _, NInf => Fin 0
  | PInf, Fin y => if Rltb y 0 then NInf else PInf
  | NInf, Fin y => if Rltb y 0 then PInf else NInf
  | _, _ => NaN
  end.

(** [a <= b] as the C comparison: false as soon as a NaN is involved. *)
Definition xle (a b : xreal) : bool :=
  match a, b with
  | NaN, _ | _, NaN => false
  | NInf, _ => true
  | _, PInf => true
  | Fin x, Fin y => Rleb x y
  | _, _ => false
  end.

Definition isnan (a : xreal) : bool :=
  match a with NaN => true | _ => false end.

(** ** The numpy functions the class calls *)

Module np.

Definition pi : R := PI.

(** [np.log] at a finite argument: [-inf] at 0 and [nan] below. *)
Definition log (x : R) : xreal :=
  if Rltb 0 x then Fin (ln x)
  else if Rltb x 0 then NaN
  else NInf.

(** [np.exp] in exact arithmetic; [float64.exp] below has its range. *)
Definition exp (a : xreal) : xreal :=
  match a with
  | Fin r => Fin (Rtrigo_def.exp r)
  | PInf => PInf
  | NInf => Fin 0
  | NaN => NaN
  end.

(** [np.sum] of a 1-D array of finite values, and of extended values. *)
Definition sum (l : list R) : R := fold_right Rplus 0 l.
Definition xsum (l : list xreal) : xreal := fold_right xadd (Fin 0) l.

Definition size {A : Type} (l : list A) : nat := length l.

Definition ones (n : nat) : list R := repeat 1 n.

(** [np.unique]: sort, then drop every element equal to its predecessor. *)
Fixpoint insert (x : Z) (l : list Z) : list Z :=
  match l with
  | [] => [x]
  | h :: t => if (x <=? h)%Z then x :: l else h :: insert x t
  end.

Definition sort (l : list Z) : list Z := fold_right insert [] l.

Fixpoint drop_repeats (l : list Z) : list Z :=
  match l with
  | [] => []
  | a :: t =>
      match t with
      | [] => [a]
      | b :: _ => if (a =? b)%Z then drop_repeats t else a :: drop_repeats t
      end
  end.

Definition unique (y : list Z) : list Z := drop_repeats (sort y).

(** Column [j] of a list of rows. *)
Definition column (j : nat) (A : list (list R)) : list R :=
  map (fun r => nth j r 0) A.

(** [np.mean(A, 0)] for [A] of shape [(length A, d)]: the sum of every
    column divided by the number of rows. *)
Definition mean0 (d : nat) (A : list (list R)) : list R :=
  map (fun j => sum (column j A) / INR (length A)) (seq 0 d).

(** [np.var(A, 0)]: the mean of the squared deviations from the mean;
    [A - mean] broadcasts the mean over the rows.  In exact arithmetic;
    [binary64.var0] below rounds every operation. *)
Definition var0 (d : nat) (A : list (list R)) : list R :=
  let mu := mean0 d A in
  let dev2 :=
    map (fun r => map (fun p => (fst p - snd p) ^ 2) (combine r mu)) A in
  mean0 d dev2.

(** [np.argmax] of one row, as the C loop of numpy: the running maximum is
    replaced when [not (x <= max)], and a NaN ends the scan. *)
Fixpoint argmax_scan (mp : xreal) (max_ind : nat) (i : nat) (l : list xreal)
  : nat :=
  match l with
  | [] => max_ind
  | x :: l' =>
      if negb (xle x mp)
      then (if isnan x then i else argmax_scan x i (S i) l')
      else argmax_scan mp max_ind (S i) l'
  end.

Definition argmax (l : list xreal) : result nat :=
  match l with
  | [] => Raise ValueError
  | x :: l' => Ok (if isnan x then 0%nat else argmax_scan x 0 1 l')
  end.

End np.

(** ** Arrays *)

(** A 2-D float array of shape [(length rows, n_cols)]. *)
Record array2 : Type := mkArray2 { n_cols : nat; rows : list (list R) }.

Definition wf_array2 (X : array2) : Prop :=
  Forall (fun r => length r = n_cols X) (rows X).

(** [y == yi], elementwise. *)
Definition eq_mask (y : list Z) (yi : Z) : list bool :=
  map (fun v => (v =? yi)%Z) y.

(** [np.sum(mask)]: the number of [True]. *)
Definition count_true (mask : list bool) : nat :=
  length (filter (fun b => b) mask).

(** [X[mask,:]]: the rows of [X] at which the mask holds; numpy raises
    IndexError when the mask's length is not the number of rows. *)
Definition getitem_mask (X : array2) (mask : list bool)
  : result (list (list R)) :=
  if Nat.eqb (length mask) (length (rows X))
  then Ok (map fst (filter snd (combine (rows X) mask)))
  else Raise IndexError.

(** [A - t] for [A] of shape [(m, d')] and [t] of shape [(d)]: the shapes
    broadcast when [d' = d], [d' = 1] or [d = 1]; ValueError otherwise. *)
Definition sub_row (x t : list R) : list R :=
  if Nat.eqb (length x) (length t)
  then map (fun p => fst p - snd p) (combine x t)
  else if Nat.eqb (length x) 1
  then map (fun tj => hd 0 x - tj) t
  else map (fun xj => xj - hd 0 t) x.

Definition broadcast_sub (X : array2) (t : list R) : result (list (list R)) :=
  if Nat.eqb (n_cols X) (length t) || Nat.eqb (n_cols X) 1
     || Nat.eqb (length t) 1
  then Ok (map (fun x => sub_row x t) (rows X))
  else Raise ValueError.

(** [np.array(cols).T] for [cols] a list of 1-D arrays of length [m]. *)
Definition transpose {A : Type} (d : A) (m : nat) (cols : list (list A))
  : list (list A) :=
  map (fun k => map (fun c => nth k c d) cols) (seq 0 m).

(** ** The estimator *)

(** The attributes [fit] stores on the instance. *)
Record attrs : Type := mkAttrs {
  theta : list (list R);
  sigma : list (list R);
  proba_y : list R;
  uniy : list Z
}.

(** An instance of [GNB]: [None] is [GNB()], with no attribute set. *)
Definition GNB : Type := option attrs.

(** The loop of [fit] over [uniy], with its three growing lists. *)
Fixpoint fit_loop (X : array2) (y : list Z) (classes : list Z)
    (th sg : list (list R)) (pr : list R)
  : result (list (list R) * list (list R) * list R) :=
  match classes with
  | [] => Ok (th, sg, pr)
  | yi :: rest =>
      sel <- getitem_mask X (eq_mask y yi) ;;
      let th := th ++ [np.mean0 (n_cols X) sel] in
      let sg := sg ++ [np.var0 (n_cols X) sel] in
      let pr := pr ++ [INR (count_true (eq_mask y yi)) / INR (np.size y)] in
      fit_loop X y rest th sg pr
  end.

Definition fit (self : GNB) (X : array2) (y : list Z) : result GNB :=
  let u := np.unique y in
  r <- fit_loop X y u [] [] [] ;;
  let '(th, sg, pr) := r in
  Ok (Some {| theta := th; sigma := sg; proba_y := pr; uniy := u |}).

(** One iteration of the loop of [predict_proba], for the class of index [i]:
    the vector [jointi + n_ij], one entry per row of [X]. *)
Definition class_scores (a : attrs) (X : array2) (i : nat)
  : result (list xreal) :=
  (* jointi = np.log(self.proba_y[i]) *)
  p <- getitem (proba_y a) i ;;
  let jointi := np.log p in
  (* n_ij = np.sum(-0.5*np.log(np.pi*self.sigma[i,:])) *)
  s <- getitem (sigma a) i ;;
  let n_ij :=
    np.xsum (map (fun v => xmul (Fin (-0.5)) (np.log (np.pi * v))) s) in
  (* n_ij = n_ij*np.ones(np.size(X,0)) *)
  let n_ij := map (fun o => xmul n_ij (Fin o)) (np.ones (np.size (rows X))) in
  (* n_ij -= np.sum((X - self.theta[i,:])**2,1) *)
  t <- getitem (theta a) i ;;
  D <- broadcast_sub X t ;;
  let q := map (fun r => np.sum (map (fun v => v ^ 2) r)) D in
  let n_ij := map (fun p => xsub (fst p) (Fin (snd p))) (combine n_ij q) in
  (* n_ij += np.sum(2*self.sigma[i,:])*np.ones(np.size(X,0)) *)
  let c :=
    map (fun o => np.sum (map (fun v => 2 * v) s) * o)
        (np.ones (np.size (rows X))) in
  let n_ij := map (fun p => xadd (fst p) (Fin (snd p))) (combine n_ij c) in
  (* joint_log_likelihood.append(jointi+n_ij) *)
  Ok (map (fun v => xadd jointi v) n_ij).

Fixpoint proba_loop (a : attrs) (X : array2) (range : list nat)
    (joint_log_likelihood : list (list xreal)) : result (list (list xreal)) :=
  match range with
  | [] => Ok joint_log_likelihood
  | i :: rest =>
      v <- class_scores a X i ;;
      proba_loop a X rest (joint_log_likelihood ++ [v])
  end.

(** [proba / np.sum(proba, 1)[:, np.newaxis]]. *)
Definition normalize_rows (proba : list (list xreal)) : list (list xreal) :=
  map (fun p => map (fun v => xdiv v (snd p)) (fst p))
      (combine proba (map np.xsum proba)).

Definition predict_proba (self : GNB) (X : array2)
  : result (list (list xreal)) :=
  match self with
  | None => Raise (AttributeError "uniy")
  | Some a =>
      jll <- proba_loop a X (seq 0 (np.size (uniy a))) [] ;;
      match jll with
      | [] =>
          (* the array is 1-D and empty: [np.sum(proba, 1)] has no axis 1 *)
          Raise ValueError
      | _ :: _ =>
          let jll := transpose NaN (np.size (rows X)) jll in
          let proba := map (map np.exp) jll in
          Ok (normalize_rows proba)
      end
  end.

Definition predict (self : GNB) (X : array2) : result (list Z) :=
  match self with
  | None => Raise (AttributeError "uniy")
  | Some a =>
      proba <- predict_proba self X ;;
      idx <- mapM np.argmax proba ;;
      mapM (getitem (uniy a)) idx
  end.

(** ** Quantities the properties are stated with *)

(** *** Per-class statistics *)

(** The rows [X[y==c,:]] and the three values appended for the class [c]. *)
Definition select (X : array2) (y : list Z) (c : Z) : list (list R) :=
  map fst (filter snd (combine (rows X) (eq_mask y c))).

Definition class_theta (X : array2) (y : list Z) (c : Z) : list R :=
  np.mean0 (n_cols X) (select X y c).

Definition class_sigma (X : array2) (y : list Z) (c : Z) : list R :=
  np.var0 (n_cols X) (select X y c).

Definition class_proba (y : list Z) (c : Z) : R :=
  INR (count_true (eq_mask y c)) / INR (np.size y).

(** The index-based reading of the same quantities: the set of sample
    indices of a class, the arithmetic mean and the population variance of
    one feature over that set. *)
Definition class_indices (y : list Z) (c : Z) : list nat :=
  filter (fun k => (nth k y 0 =? c)%Z) (seq 0 (length y)).

Definition entry (X : array2) (k j : nat) : R :=
  nth j (nth k (rows X) []) 0.

Definition mean_spec (X : array2) (y : list Z) (c : Z) (j : nat) : R :=
  np.sum (map (fun k => entry X k j) (class_indices y c))
  / INR (length (class_indices y c)).

Definition var_spec (X : array2) (y : list Z) (c : Z) (j : nat) : R :=
  np.sum (map (fun k => (entry X k j - mean_spec X y c j) ^ 2)
              (class_indices y c))
  / INR (length (class_indices y c)).

(** The training data of the class docstring. *)
Definition X_doc : array2 :=
  mkArray2 2 [[-1; -1]; [-2; -1]; [-3; -2]; [1; 1]; [2; 1]; [3; 2]].

Definition y_doc : list Z := [1; 1; 1; 2; 2; 2]%Z.

(** [l[p]]: the elements of [l] at the indices listed by [p]. *)
Definition take {A : Type} (d : A) (l : list A) (p : list nat) : list A :=
  map (fun k => nth k l d) p.

(** [X[p,:]]: the rows of [X] at the indices listed by [p]. *)
Definition take_rows (X : array2) (p : list nat) : array2 :=
  mkArray2 (n_cols X) (take [] (rows X) p).

(** The model stored by [fit] when [y] is empty. *)
Definition empty_attrs : attrs :=
  {| theta := []; sigma := []; proba_y := []; uniy := [] |}.

(** *** The formula of [predict_proba] *)

(** The joint log-likelihood of the sample [x] for the class of index [i],
    written feature by feature for [d] features. *)
Definition joint_log_likelihood_spec (a : attrs) (d : nat) (x : list R)
    (i : nat) : xreal :=
  let class_prior := nth i (proba_y a) 0 in
  let variance j := nth j (nth i (sigma a) []) 0 in
  let mean j := nth j (nth i (theta a) []) 0 in
  let log_prior := np.log class_prior in
  let norm_term :=
    np.xsum (map (fun j => xmul (Fin (-0.5)) (np.log (PI * variance j)))
                 (seq 0 d)) in
  let quadratic_term :=
    np.sum (map (fun j => (nth j x 0 - mean j) ^ 2) (seq 0 d)) in
  let correction_term := np.sum (map (fun j => 2 * variance j) (seq 0 d)) in
  xadd (xsub (xadd log_prior norm_term) (Fin quadratic_term))
       (Fin correction_term).

(** Exponentiate the scores of one sample and divide by their sum. *)
Definition posterior_spec (scores : list xreal) : list xreal :=
  let unnormalized := map np.exp scores in
  map (fun v => xdiv v (np.xsum unnormalized)) unnormalized.

Definition predict_proba_spec (a : attrs) (X : array2) : list (list xreal) :=
  map (fun x =>
         posterior_spec
           (map (joint_log_likelihood_spec a (n_cols X) x)
                (seq 0 (length (uniy a)))))
      (rows X).

(** The attributes have the shapes [fit] gives them, for [d] features. *)
Definition fitted_shape (a : attrs) (d : nat) : Prop :=
  length (theta a) = length (uniy a)
  /\ length (sigma a) = length (uniy a)
  /\ length (proba_y a) = length (uniy a)
  /\ Forall (fun r => length r = d) (theta a)
  /\ Forall (fun r => length r = d) (sigma a).

(** The model fitted on the docstring data, and the query of the
    docstring. *)
Definition a_doc : attrs :=
  {| theta := map (class_theta X_doc y_doc) (np.unique y_doc);
     sigma := map (class_sigma X_doc y_doc) (np.unique y_doc);
     proba_y := map (class_proba y_doc) (np.unique y_doc);
     uniy := np.unique y_doc |}.

Definition X_query : array2 := mkArray2 2 [[-0.8; -1]].

(** The score as a real number, when every logarithm is defined. *)
Definition jll_real (a : attrs) (d : nat) (x : list R) (i : nat) : R :=
  ln (nth i (proba_y a) 0)
  + np.sum (map (fun j => -0.5 * ln (PI * nth j (nth i (sigma a) []) 0))
                (seq 0 d))
  - np.sum (map (fun j => (nth j x 0 - nth j (nth i (theta a) []) 0) ^ 2)
                (seq 0 d))
  + np.sum (map (fun j => 2 * nth j (nth i (sigma a) []) 0) (seq 0 d)).

(** The posterior of one sample from its real scores. *)
Definition posterior_real (scores : list R) : list R :=
  map (fun v => v / np.sum (map exp scores)) (map exp scores).

(** *** First maximum of a row *)

(** Position [i] of [row] holds a maximum: a NaN, which numpy treats as the
    maximum, or a value that every entry is below or equal to. *)
Definition is_max_at (row : list xreal) (i : nat) : Prop :=
  exists v, nth_error row i = Some v
            /\ (v = NaN \/ Forall (fun w => xle w v = true) row).

(** [i] is the lowest position of [row] that holds a maximum. *)
Definition first_max (row : list xreal) (i : nat) : Prop :=
  is_max_at row i /\ forall j, (j < i)%nat -> ~ is_max_at row j.

(** Equality of two lists of the same length, entry by entry. *)
Ltac list_eq :=
  repeat match goal with
    | |- (_ :: _) = (_ :: _) => apply f_equal2
    | |- [] = [] => reflexivity
    end.

(** The values [fit] stores for the docstring data. *)
Definition a_doc_explicit : attrs :=
  {| theta := [[-2; -4/3]; [2; 4/3]];
     sigma := [[2/3; 2/9]; [2/3; 2/9]];
     proba_y := [1/2; 1/2];
     uniy := [1; 2]%Z |}.

(** *** Quantities of the further properties *)


(** The class of index [i] has a stored variance equal to 0. *)
Definition degenerate (a : attrs) (i : nat) : Prop :=
  In 0 (nth i (sigma a) []).

(** [np.vstack((X, X'))] for two arrays with the same number of columns. *)
Definition vstack (X X' : array2) : array2 :=
  mkArray2 (n_cols X) (rows X ++ rows X').

(** [X + v] for [v] of shape [(n_cols X)]: [v] is added to every row. *)
Definition add_row (x v : list R) : list R :=
  map (fun p => fst p + snd p) (combine x v).

Definition shift (X : array2) (v : list R) : array2 :=
  mkArray2 (n_cols X) (map (fun x => add_row x v) (rows X)).

(** A training set whose class 1 is constant in its first feature, and the
    model [fit] stores for it. *)
Definition X_const : array2 := mkArray2 2 [[1; 0]; [1; 2]; [5; 5]; [7; 9]].

Definition y_const : list Z := [1; 1; 2; 2]%Z.

Definition a_const : attrs :=
  {| theta := map (class_theta X_const y_const) (np.unique y_const);
     sigma := map (class_sigma X_const y_const) (np.unique y_const);
     proba_y := map (class_proba y_const) (np.unique y_const);
     uniy := np.unique y_const |}.

(** A value of a row of scores: [+inf] or finite. *)
Definition fin_or_pinf (v : xreal) : Prop := v = PInf \/ exists r, v = Fin r.

(** What normalization makes of a score when some score is [+inf]. *)
Definition swamped (v : xreal) : xreal :=
  match v with
  | PInf => NaN
  | _ => Fin 0
  end.

(** [np.tile(X, (1, d))] for [X] with a single column: the value of each row
    repeated [d] times. *)
Definition tile (X : array2) (d : nat) : array2 :=
  mkArray2 d (map (fun x => repeat (hd 0 x) d) (rows X)).

(** A translation of the docstring data, and the model [fit] stores for the
    translated data. *)
Definition v_doc : list R := [10; -3].

Definition a_doc_shift : attrs :=
  {| theta := map (class_theta (shift X_doc v_doc) y_doc) (np.unique y_doc);
     sigma := map (class_sigma (shift X_doc v_doc) y_doc) (np.unique y_doc);
     proba_y := map (class_proba y_doc) (np.unique y_doc);
     uniy := np.unique y_doc |}.


(** ** The range of float64 *)

(** The embedding above computes on finite values in exact arithmetic.  Two
    steps of [predict_proba] meet the range of float64 on ordinary inputs:
    [np.exp] of a score and the sum of a row of exponentials.  Here both
    keep the range of float64 (their rounding is still left out): a result
    at or below [tiny], half the smallest positive float64, rounds to 0, and
    a result at or above [huge], half-way between the largest float64 and
    [2^1024], rounds to [inf]. *)
Module float64.

Definition tiny : R := / 2 ^ 1075.

Definition huge : R := 2 ^ 1024 - 2 ^ 970.

Definition exp (a : xreal) : xreal :=
  match a with
  | Fin r =>
      if Rleb (Rtrigo_def.exp r) tiny then Fin 0
      else if Rleb huge (Rtrigo_def.exp r) then PInf
      else Fin (Rtrigo_def.exp r)
  | PInf => PInf
  | NInf => Fin 0
  | NaN => NaN
  end.

(** [np.sum] of a row: the exact sum, [inf] or [-inf] beyond the range. *)
Definition sum (l : list xreal) : xreal :=
  match np.xsum l with
  | Fin r =>
      if Rleb huge r then PInf
      else if Rleb r (- huge) then NInf
      else Fin r
  | v => v
  end.

End float64.

(** [proba / np.sum(proba, 1)[:, np.newaxis]], with the ranged sum. *)
Definition normalize_rows_float64 (proba : list (list xreal))
  : list (list xreal) :=
  map (fun p => map (fun v => xdiv v (snd p)) (fst p))
      (combine proba (map float64.sum proba)).

(** [predict_proba] and [predict] with the range of float64 in [np.exp] and
    in the row sums; the scores are those of [proba_loop]. *)
Definition predict_proba_float64 (self : GNB) (X : array2)
  : result (list (list xreal)) :=
  match self with
  | None => Raise (AttributeError "uniy")
  | Some a =>
      jll <- proba_loop a X (seq 0 (np.size (uniy a))) [] ;;
      match jll with
      | [] => Raise ValueError
      | _ :: _ =>
          let jll := transpose NaN (np.size (rows X)) jll in
          let proba := map (map float64.exp) jll in
          Ok (normalize_rows_float64 proba)
      end
  end.

Definition predict_float64 (self : GNB) (X : array2) : result (list Z) :=
  match self with
  | None => Raise (AttributeError "uniy")
  | Some a =>
      proba <- predict_proba_float64 self X ;;
      idx <- mapM np.argmax proba ;;
      mapM (getitem (uniy a)) idx
  end.

(** *** Quantities of the properties about the range *)

(** Exponentiate the scores of one sample and divide by their sum, with the
    range of float64. *)
Definition posterior_float64_spec (scores : list xreal) : list xreal :=
  let unnormalized := map float64.exp scores in
  map (fun v => xdiv v (float64.sum unnormalized)) unnormalized.

(** The value of [np.exp] at a real score whose exponential is below
    [huge]. *)
Definition exp_value (s : R) : R :=
  if Rleb (exp s) float64.tiny then 0 else exp s.

(** The exponentials of the scores of a row stay in range: one of them
    does not underflow to 0 and their sum stays below [huge]. *)
Definition in_range (scores : list R) : Prop :=
  (exists s, In s scores /\ float64.tiny < exp s)
  /\ np.sum (map exp scores) < float64.huge.

(** Every score of a row is so low that [np.exp] returns 0. *)
Definition all_underflow (scores : list R) : Prop :=
  Forall (fun s => exp s <= float64.tiny) scores.

(** The posterior of one sample from its real scores, in range. *)
Definition posterior_float64_real (scores : list R) : list R :=
  map (fun s => exp_value s / np.sum (map exp_value scores)) scores.

(** A query far from both class means of the docstring data. *)
Definition X_far : array2 := mkArray2 2 [[100; 100]].

(** The class of index [i] saturates on the sample [x]: its score is [+inf]
    or so high that [np.exp] overflows to [+inf]. *)
Definition saturated (a : attrs) (d : nat) (x : list R) (i : nat) : Prop :=
  float64.exp (joint_log_likelihood_spec a d x i) = PInf.

(** A training set with one feature: the two samples of class 1 are far
    apart and class 2 has a single sample, and a query between them. *)
Definition X_wide : array2 := mkArray2 1 [[0]; [60]; [30]].

Definition y_wide : list Z := [1; 1; 2]%Z.

Definition a_wide : attrs :=
  {| theta := map (class_theta X_wide y_wide) (np.unique y_wide);
     sigma := map (class_sigma X_wide y_wide) (np.unique y_wide);
     proba_y := map (class_proba y_wide) (np.unique y_wide);
     uniy := np.unique y_wide |}.

Definition a_wide_explicit : attrs :=
  {| theta := [[30]; [30]];
     sigma := [[900]; [0]];
     proba_y := [2/3; 1/3];
     uniy := [1; 2]%Z |}.

Definition X_mid : array2 := mkArray2 1 [[25]].

(** ** [fit] in binary64 arithmetic *)

(** The reductions of [fit] once more, on the binary64 numbers of Rocq with
    every operation rounded as IEEE 754 prescribes: what the exact
    arithmetic above leaves out.  Counts are below [2^53], so [of_nat] is
    exact. *)
Module binary64.

Definition float : Set := PrimFloat.float.

Fixpoint of_nat (n : nat) : float :=
  match n with
  | O => PrimFloat.zero
  | S k => PrimFloat.add (of_nat k) PrimFloat.one
  end.

(** [1 / 2^n], exactly. *)
Fixpoint pow2_neg (n : nat) : float :=
  match n with
  | O => PrimFloat.one
  | S k => PrimFloat.div (pow2_neg k) PrimFloat.two
  end.

(** [np.sum] along axis 0: the rows are accumulated one after the other. *)
Definition sum (l : list float) : float :=
  fold_left PrimFloat.add l PrimFloat.zero.

Definition column (j : nat) (A : list (list float)) : list float :=
  map (fun r => nth j r PrimFloat.zero) A.

Definition mean0 (d : nat) (A : list (list float)) : list float :=
  map (fun j => PrimFloat.div (sum (column j A)) (of_nat (length A)))
      (seq 0 d).

Definition var0 (d : nat) (A : list (list float)) : list float :=
  let mu := mean0 d A in
  let dev2 :=
    map (fun r =>
           map (fun p =>
                  PrimFloat.mul (PrimFloat.sub (fst p) (snd p))
                                (PrimFloat.sub (fst p) (snd p)))
               (combine r mu)) A in
  mean0 d dev2.

Record array2 : Type := mkArray2 { n_cols : nat; rows : list (list float) }.

Definition getitem_mask (X : array2) (mask : list bool)
  : result (list (list float)) :=
  if Nat.eqb (length mask) (length (rows X))
  then Ok (map fst (filter snd (combine (rows X) mask)))
  else Raise IndexError.

Record attrs : Type := mkAttrs {
  theta : list (list float);
  sigma : list (list float);
  proba_y : list float;
  uniy : list Z
}.

Fixpoint fit_loop (X : array2) (y : list Z) (classes : list Z)
    (th sg : list (list float)) (pr : list float)
  : result (list (list float) * list (list float) * list float) :=
  match classes with
  | [] => Ok (th, sg, pr)
  | yi :: rest =>
      sel <- getitem_mask X (eq_mask y yi) ;;
      let th := th ++ [mean0 (n_cols X) sel] in
      let sg := sg ++ [var0 (n_cols X) sel] in
      let pr :=
        pr ++ [PrimFloat.div (of_nat (count_true (eq_mask y yi)))
                             (of_nat (np.size y))] in
      fit_loop X y rest th sg pr
  end.

Definition fit (X : array2) (y : list Z) : result attrs :=
  let u := np.unique y in
  r <- fit_loop X y u [] [] [] ;;
  let '(th, sg, pr) := r in
  Ok {| theta := th; sigma := sg; proba_y := pr; uniy := u |}.

(** The binary64 number nearest to [0.1], and three samples of one class
    that all hold it in their only feature. *)
Definition tenth : float := PrimFloat.div PrimFloat.one (of_nat 10).

Definition X_tenths : array2 := mkArray2 1 [[tenth]; [tenth]; [tenth]].

Definition y_tenths : list Z := [1; 1; 1]%Z.

End binary64.

(** A training set whose class 1 has a single sample. *)
Definition X_lone : array2 := mkArray2 2 [[1; 2]; [3; 4]; [5; 8]].

Definition y_lone : list Z := [1; 2; 2]%Z.

(** * Properties *)

(** ** [np.unique] returns the sorted distinct values *)

Section Unique.

Lemma insert_In (x z : Z) (l : list Z) :
  In z (np.insert x l) <-> z = x \/ In z l.
Proof.
  induction l as [|h t IH]; simpl.
  - intuition.
  - destruct (x <=? h)%Z; simpl; rewrite ?IH; intuition.
Qed.

Lemma sort_In (z : Z) (l : list Z) : In z (np.sort l) <-> In z l.
Proof.
  induction l as [|h t IH]; simpl; [tauto|].
  rewrite insert_In, IH. intuition.
Qed.

Lemma insert_sorted (x : Z) (l : list Z) :
  StronglySorted Z.le l -> StronglySorted Z.le (np.insert x l).
Proof.
  induction 1 as [|h t Hs IH Hall]; simpl.
  - repeat constructor.
  - destruct (x <=? h)%Z eqn:E.
    + apply Z.leb_le in E. constructor; [constructor; assumption|].
      constructor; [assumption|].
      rewrite Forall_forall in *. intros z Hz. specialize (Hall z Hz). lia.
    + apply Z.leb_gt in E. constructor; [assumption|].
      rewrite Forall_forall in *. intros z Hz.
      rewrite insert_In in Hz. destruct Hz as [->|Hz]; [lia|auto].
Qed.

Lemma sort_sorted (l : list Z) : StronglySorted Z.le (np.sort l).
Proof.
  induction l; simpl; [constructor|]. now apply insert_sorted.
Qed.

Lemma drop_repeats_In (z : Z) (l : list Z) :
  In z (np.drop_repeats l) <-> In z l.
Proof.
  induction l as [|a t IH]; [tauto|].
  destruct t as [|b t'].
  - simpl. tauto.
  - change (np.drop_repeats (a :: b :: t'))
      with (if (a =? b)%Z then np.drop_repeats (b :: t')
            else a :: np.drop_repeats (b :: t')).
    destruct (a =? b)%Z eqn:E.
    + apply Z.eqb_eq in E. subst b. rewrite IH. simpl. tauto.
    + simpl (In z (a :: _)). rewrite IH. simpl. tauto.
Qed.

Lemma drop_repeats_sorted (l : list Z) :
  StronglySorted Z.le l -> StronglySorted Z.lt (np.drop_repeats l).
Proof.
  induction 1 as [|a t Hs IH Hall]; [constructor|].
  destruct t as [|b t'].
  - simpl. repeat constructor.
  - change (np.drop_repeats (a :: b :: t'))
      with (if (a =? b)%Z then np.drop_repeats (b :: t')
            else a :: np.drop_repeats (b :: t')).
    destruct (a =? b)%Z eqn:E; [assumption|].
    apply Z.eqb_neq in E. constructor; [assumption|].
    rewrite Forall_forall in *. intros z Hz.
    rewrite drop_repeats_In in Hz.
    assert (Hab : (a <= b)%Z) by (apply Hall; now left).
    simpl in Hz. destruct Hz as [<-|Hz]; [lia|].
    inversion Hs as [|? ? _ Hb]; subst.
    rewrite Forall_forall in Hb. specialize (Hb z Hz). lia.
Qed.

Lemma unique_In (z : Z) (y : list Z) : In z (np.unique y) <-> In z y.
Proof. unfold np.unique. now rewrite drop_repeats_In, sort_In. Qed.

Lemma unique_sorted (y : list Z) : StronglySorted Z.lt (np.unique y).
Proof. apply drop_repeats_sorted, sort_sorted. Qed.

Lemma unique_NoDup (y : list Z) : NoDup (np.unique y).
Proof.
  generalize (unique_sorted y). generalize (np.unique y).
  induction 1 as [|a t Hs IH Hall]; constructor; [|assumption].
  intro Hin. rewrite Forall_forall in Hall. specialize (Hall a Hin). lia.
Qed.

(** A strictly increasing list is determined by its elements. *)
Lemma sorted_lt_ext (l1 l2 : list Z) :
  StronglySorted Z.lt l1 -> StronglySorted Z.lt l2 ->
  (forall z, In z l1 <-> In z l2) -> l1 = l2.
Proof.
  intros H1. revert l2.
  induction H1 as [|a t Hs IH Hall]; intros l2 H2 Hext.
  - destruct l2 as [|b t2]; [reflexivity|].
    exfalso. apply (proj2 (Hext b)). now left.
  - destruct H2 as [|b t2 Hs2 Hall2].
    + exfalso. apply (proj1 (Hext a)). now left.
    + rewrite Forall_forall in Hall, Hall2.
      assert (a = b).
      { destruct (proj1 (Hext a) (or_introl eq_refl)) as [E|Hin];
          [now symmetry|].
        destruct (proj2 (Hext b) (or_introl eq_refl)) as [E|Hin'];
          [assumption|].
        specialize (Hall _ Hin'). specialize (Hall2 _ Hin). lia. }
      subst b. f_equal. apply IH; [assumption|].
      intro z. split; intro Hz.
      * destruct (proj1 (Hext z) (or_intror Hz)) as [E|Hin];
          [|assumption].
        subst z. specialize (Hall _ Hz). lia.
      * destruct (proj2 (Hext z) (or_intror Hz)) as [E|Hin];
          [|assumption].
        subst z. specialize (Hall2 _ Hz). lia.
Qed.

Lemma unique_Permutation (y y' : list Z) :
  Permutation y y' -> np.unique y = np.unique y'.
Proof.
  intro HP. apply sorted_lt_ext; try apply unique_sorted.
  intro z. rewrite !unique_In. split; apply Permutation_in;
    [assumption | now apply Permutation_sym].
Qed.

End Unique.

(** ** What the loop of [fit] computes *)

Section FitLoop.

Variables (X : array2) (y : list Z).

Lemma getitem_mask_ok (c : Z) :
  length (rows X) = length y ->
  getitem_mask X (eq_mask y c) = Ok (select X y c).
Proof.
  intro H. unfold getitem_mask, eq_mask. rewrite length_map, <- H.
  now rewrite Nat.eqb_refl.
Qed.

Lemma getitem_mask_mismatch (c : Z) :
  length (rows X) <> length y ->
  getitem_mask X (eq_mask y c) = Raise IndexError.
Proof.
  intro H. unfold getitem_mask, eq_mask. rewrite length_map.
  destruct (Nat.eqb_spec (length y) (length (rows X))); congruence.
Qed.

Lemma fit_loop_ok (classes : list Z) :
  length (rows X) = length y ->
  forall th sg pr,
    fit_loop X y classes th sg pr
    = Ok (th ++ map (class_theta X y) classes,
          sg ++ map (class_sigma X y) classes,
          pr ++ map (class_proba y) classes).
Proof.
  intro H. induction classes as [|c rest IH]; intros th sg pr; simpl.
  - now rewrite !app_nil_r.
  - rewrite (getitem_mask_ok c H). simpl. rewrite IH.
    now rewrite <- !app_assoc.
Qed.

Lemma fit_loop_mismatch (c : Z) (rest : list Z) th sg pr :
  length (rows X) <> length y ->
  fit_loop X y (c :: rest) th sg pr = Raise IndexError.
Proof. intro H. simpl. now rewrite (getitem_mask_mismatch c H). Qed.

End FitLoop.

Lemma fit_ok (self : GNB) (X : array2) (y : list Z) :
  length (rows X) = length y ->
  fit self X y
  = Ok (Some {| theta := map (class_theta X y) (np.unique y);
                sigma := map (class_sigma X y) (np.unique y);
                proba_y := map (class_proba y) (np.unique y);
                uniy := np.unique y |}).
Proof. intro H. unfold fit. now rewrite (fit_loop_ok X y _ H). Qed.

Lemma unique_nonempty (y : list Z) : y <> [] -> np.unique y <> [].
Proof.
  destruct y as [|a t]; [congruence|]. intros _ E.
  assert (Hin : In a (np.unique (a :: t))) by (apply unique_In; now left).
  rewrite E in Hin. exact Hin.
Qed.

Lemma fit_mismatch (self : GNB) (X : array2) (y : list Z) :
  y <> [] -> length (rows X) <> length y ->
  fit self X y = Raise IndexError.
Proof.
  intros Hy H. unfold fit.
  destruct (np.unique y) as [|c rest] eqn:E.
  - now apply unique_nonempty in Hy.
  - now rewrite (fit_loop_mismatch X y c rest _ _ _ H).
Qed.

(** ** Boolean-mask selection, read through indices *)

Section MaskIndices.

Lemma filter_map_comm {A B : Type} (f : B -> bool) (g : A -> B) (l : list A) :
  filter f (map g l) = map g (filter (fun a => f (g a)) l).
Proof.
  induction l as [|a t IH]; simpl; [reflexivity|].
  destruct (f (g a)); simpl; now rewrite IH.
Qed.

Lemma mask_select_indices {A : Type} (d : A) (l : list A) :
  forall m : list bool,
    length l = length m ->
    map fst (filter snd (combine l m))
    = map (fun k => nth k l d)
          (filter (fun k => nth k m false) (seq 0 (length l))).
Proof.
  induction l as [|a t IH]; intros [|b m] H; simpl in H; try discriminate;
    [reflexivity|].
  injection H as H.
  cbn [length seq]. rewrite <- seq_shift.
  destruct b; cbn [combine filter snd nth map fst];
    rewrite filter_map_comm, map_map; cbn [nth];
    now rewrite (IH m H).
Qed.

Lemma eq_mask_nth (y : list Z) (c : Z) (k : nat) :
  (k < length y)%nat ->
  nth k (eq_mask y c) false = (nth k y 0 =? c)%Z.
Proof.
  intro H. unfold eq_mask.
  rewrite (nth_indep _ false ((0 =? c)%Z)) by now rewrite length_map.
  apply (map_nth (fun v => (v =? c)%Z)).
Qed.

Lemma select_indices (X : array2) (y : list Z) (c : Z) :
  length (rows X) = length y ->
  select X y c = map (fun k => nth k (rows X) []) (class_indices y c).
Proof.
  intro H. unfold select, class_indices.
  rewrite (mask_select_indices [] (rows X) (eq_mask y c))
    by (unfold eq_mask; now rewrite length_map).
  rewrite H. f_equal. apply filter_ext_in.
  intros k Hk. apply in_seq in Hk. apply eq_mask_nth. lia.
Qed.

Lemma count_true_indices (y : list Z) (c : Z) :
  count_true (eq_mask y c) = length (class_indices y c).
Proof.
  unfold count_true, class_indices.
  assert (G : forall m : list bool,
             length (filter (fun b => b) m)
             = length (filter (fun k => nth k m false) (seq 0 (length m)))).
  { induction m as [|b m IH]; [reflexivity|].
    cbn [length seq]. rewrite <- seq_shift.
    destruct b; cbn [filter nth length]; rewrite filter_map_comm, length_map;
      cbn [nth]; now rewrite IH. }
  rewrite G. unfold eq_mask at 2. rewrite length_map. f_equal.
  apply filter_ext_in. intros k Hk. apply in_seq in Hk.
  apply eq_mask_nth. lia.
Qed.

Lemma count_true_count_occ (y : list Z) (c : Z) :
  count_true (eq_mask y c) = count_occ Z.eq_dec y c.
Proof.
  unfold count_true, eq_mask.
  induction y as [|a t IH]; simpl; [reflexivity|].
  destruct (Z.eqb_spec a c), (Z.eq_dec a c); simpl; congruence.
Qed.

End MaskIndices.

(** ** The stored mean and variance, entry by entry *)

Section MeanVar.

Variables (X : array2) (y : list Z).
Hypothesis Hlen : length (rows X) = length y.

Lemma class_indices_lt (c : Z) (k : nat) :
  In k (class_indices y c) -> (k < length y)%nat /\ nth k y 0%Z = c.
Proof.
  unfold class_indices. rewrite filter_In, in_seq, Z.eqb_eq. lia.
Qed.

Lemma column_select (c : Z) (j : nat) :
  np.column j (select X y c)
  = map (fun k => entry X k j) (class_indices y c).
Proof.
  rewrite (select_indices X y c Hlen). unfold np.column.
  now rewrite map_map.
Qed.

Lemma select_length (c : Z) :
  length (select X y c) = length (class_indices y c).
Proof. rewrite (select_indices X y c Hlen). apply length_map. Qed.

Lemma class_theta_spec (c : Z) :
  class_theta X y c = map (mean_spec X y c) (seq 0 (n_cols X)).
Proof.
  unfold class_theta, np.mean0, mean_spec. apply map_ext. intro j.
  now rewrite column_select, select_length.
Qed.

Lemma class_theta_nth (c : Z) (j : nat) :
  (j < n_cols X)%nat -> nth j (class_theta X y c) 0 = mean_spec X y c j.
Proof.
  intro H. rewrite class_theta_spec.
  rewrite (nth_indep _ 0 (mean_spec X y c 0))
    by now rewrite length_map, length_seq.
  rewrite (map_nth (mean_spec X y c)). now rewrite seq_nth.
Qed.

Lemma sq_dev_nth (r mu : list R) (j : nat) :
  length r = length mu -> (j < length r)%nat ->
  nth j (map (fun p => (fst p - snd p) ^ 2) (combine r mu)) 0
  = (nth j r 0 - nth j mu 0) ^ 2.
Proof.
  intros Hl Hj.
  rewrite (nth_indep _ 0 ((fun p => (fst p - snd p) ^ 2) (0, 0)))
    by (rewrite length_map, length_combine; lia).
  rewrite (map_nth (fun p => (fst p - snd p) ^ 2)).
  now rewrite (combine_nth r mu j 0 0 Hl).
Qed.

Hypothesis Hwf : wf_array2 X.

Lemma row_length (k : nat) :
  (k < length y)%nat -> length (nth k (rows X) []) = n_cols X.
Proof.
  intro H. unfold wf_array2 in Hwf. rewrite Forall_forall in Hwf.
  apply Hwf, nth_In. lia.
Qed.

Lemma class_sigma_spec (c : Z) :
  class_sigma X y c = map (var_spec X y c) (seq 0 (n_cols X)).
Proof.
  unfold class_sigma, np.var0. fold (class_theta X y c).
  unfold np.mean0 at 1. apply map_ext_in. intros j Hj.
  apply in_seq in Hj. rewrite length_map, select_length.
  unfold var_spec. f_equal. unfold np.column.
  rewrite map_map, (select_indices X y c Hlen), map_map.
  f_equal. apply map_ext_in. intros k Hk. apply class_indices_lt in Hk.
  pose proof (row_length k (proj1 Hk)) as Hr.
  rewrite sq_dev_nth.
  - rewrite class_theta_nth by lia. reflexivity.
  - rewrite Hr, class_theta_spec. now rewrite length_map, length_seq.
  - lia.
Qed.

End MeanVar.

(** ** Class counts *)

Section Counts.

Lemma list_sum_indicator (u : list Z) (a : Z) :
  list_sum (map (fun c => if Z.eq_dec a c then 1%nat else 0%nat) u)
  = count_occ Z.eq_dec u a.
Proof.
  induction u as [|h t IH]; simpl; [reflexivity|].
  destruct (Z.eq_dec a h), (Z.eq_dec h a); try congruence; simpl;
    now rewrite IH.
Qed.

Lemma list_sum_map_add {A : Type} (f g : A -> nat) (l : list A) :
  list_sum (map (fun c => (f c + g c)%nat) l)
  = (list_sum (map f l) + list_sum (map g l))%nat.
Proof. induction l as [|h t IH]; simpl; [reflexivity|]. rewrite IH. lia. Qed.

(** Over a duplicate-free list of classes that covers [y], the class counts
    add up to the number of samples. *)
Lemma list_sum_count_occ (u y : list Z) :
  NoDup u -> (forall a, In a y -> In a u) ->
  list_sum (map (count_occ Z.eq_dec y) u) = length y.
Proof.
  intros Hnd. induction y as [|a t IH]; intro Hcov.
  - clear Hnd Hcov. induction u; simpl; [reflexivity | assumption].
  - rewrite (map_ext (count_occ Z.eq_dec (a :: t))
               (fun c => ((if Z.eq_dec a c then 1 else 0)
                          + count_occ Z.eq_dec t c)%nat)).
    + rewrite list_sum_map_add, list_sum_indicator, IH.
      * assert (count_occ Z.eq_dec u a = 1%nat) as ->; [|reflexivity].
        apply NoDup_count_occ'; [assumption|]. apply Hcov. now left.
      * intros b Hb. apply Hcov. now right.
    + intro c. simpl. now destruct (Z.eq_dec a c).
Qed.

Lemma sum_INR_div (l : list nat) (n : R) :
  np.sum (map (fun k => INR k / n) l) = INR (list_sum l) / n.
Proof.
  unfold np.sum. induction l as [|h t IH]; cbn [map fold_right list_sum].
  - unfold Rdiv. now rewrite Rmult_0_l.
  - rewrite IH, plus_INR. fold (list_sum t). unfold Rdiv. ring.
Qed.

End Counts.

(** ** The training data of the class docstring *)

Lemma X_doc_wf : wf_array2 X_doc.
Proof. unfold wf_array2, X_doc; simpl. repeat constructor. Defined.

(** ** Claims about [fit] *)

(** C2. For every training matrix [X] whose rows all have [n_cols X]
    features and every label vector [y] with one label per row, [fit] stores
    as [uniy] the strictly increasing list of the values that occur in [y];
    row [i] of [theta] holds, for each feature [j], the arithmetic mean of
    feature [j] over the samples whose label is [uniy[i]], and row [i] of
    [sigma] holds the population variance of feature [j] over the same
    samples (sum of the squared deviations from that mean, divided by the
    number of those samples, which is at least one). *)
Theorem fit_stores_class_mean_and_variance
    (self : GNB) (X : array2) (y : list Z) :
  wf_array2 X ->
  length (rows X) = length y ->
  exists a : attrs,
    fit self X y = Ok (Some a)
    /\ StronglySorted Z.lt (uniy a)
    /\ (forall c, In c (uniy a) <-> In c y)
    /\ length (theta a) = length (uniy a)
    /\ length (sigma a) = length (uniy a)
    /\ forall i c,
         nth_error (uniy a) i = Some c ->
         (1 <= length (class_indices y c))%nat
         /\ nth_error (theta a) i
            = Some (map (mean_spec X y c) (seq 0 (n_cols X)))
         /\ nth_error (sigma a) i
            = Some (map (var_spec X y c) (seq 0 (n_cols X))).
Proof.
  intros Hwf Hlen. eexists. split; [apply (fit_ok self X y Hlen)|].
  cbn [uniy theta sigma]. rewrite !length_map.
  split; [apply unique_sorted|].
  split; [intro c; apply unique_In|].
  do 2 (split; [reflexivity|]).
  intros i c Hi. split; [|split].
  - apply nth_error_In in Hi. rewrite unique_In in Hi.
    rewrite <- count_true_indices, count_true_count_occ.
    exact (proj1 (count_occ_In Z.eq_dec y c) Hi).
  - rewrite (map_nth_error _ _ _ Hi). f_equal.
    now apply class_theta_spec.
  - rewrite (map_nth_error _ _ _ Hi). f_equal.
    now apply class_sigma_spec.
Qed.

Lemma fit_stores_class_mean_and_variance_witness :
  exists a : attrs,
    fit None X_doc y_doc = Ok (Some a)
    /\ StronglySorted Z.lt (uniy a)
    /\ (forall c, In c (uniy a) <-> In c y_doc)
    /\ length (theta a) = length (uniy a)
    /\ length (sigma a) = length (uniy a)
    /\ forall i c,
         nth_error (uniy a) i = Some c ->
         (1 <= length (class_indices y_doc c))%nat
         /\ nth_error (theta a) i
            = Some (map (mean_spec X_doc y_doc c) (seq 0 (n_cols X_doc)))
         /\ nth_error (sigma a) i
            = Some (map (var_spec X_doc y_doc c) (seq 0 (n_cols X_doc))).
Proof.
  apply (fit_stores_class_mean_and_variance None X_doc y_doc).
  - exact X_doc_wf.
  - reflexivity.
Defined.

(** C3. For every training input with one label per row and at least one
    sample, the stored [proba_y[i]] is the number of samples whose label is
    [uniy[i]] divided, as a real number, by the number of samples; the
    entries of [proba_y] add up to 1 and each of them is strictly
    positive. *)
Theorem fit_class_prior (self : GNB) (X : array2) (y : list Z) :
  length (rows X) = length y ->
  (1 <= length y)%nat ->
  exists a : attrs,
    fit self X y = Ok (Some a)
    /\ length (proba_y a) = length (uniy a)
    /\ (forall i c,
          nth_error (uniy a) i = Some c ->
          nth_error (proba_y a) i
          = Some (INR (count_occ Z.eq_dec y c) / INR (length y)))
    /\ np.sum (proba_y a) = 1
    /\ Forall (fun p => 0 < p) (proba_y a).
Proof.
  intros Hlen Hn. eexists. split; [apply (fit_ok self X y Hlen)|].
  cbn [uniy proba_y]. rewrite length_map.
  assert (Hpos : 0 < INR (length y)) by (apply lt_0_INR; lia).
  assert (Hext : forall c,
             class_proba y c = INR (count_occ Z.eq_dec y c) / INR (length y)).
  { intro c. unfold class_proba, np.size. now rewrite count_true_count_occ. }
  split; [reflexivity|]. split; [|split].
  - intros i c Hi. rewrite (map_nth_error _ _ _ Hi). now rewrite Hext.
  - rewrite (map_ext _ _ Hext).
    rewrite <- (map_map (count_occ Z.eq_dec y)
                  (fun k => INR k / INR (length y))).
    rewrite sum_INR_div, list_sum_count_occ.
    + apply Rdiv_diag. lra.
    + apply unique_NoDup.
    + intros b Hb. now apply unique_In.
  - apply Forall_forall. intros p Hp. apply in_map_iff in Hp.
    destruct Hp as [c [<- Hc]]. rewrite Hext.
    apply Rdiv_lt_0_compat; [|assumption].
    apply lt_0_INR. rewrite unique_In in Hc.
    exact (proj1 (count_occ_In Z.eq_dec y c) Hc).
Qed.

Lemma fit_class_prior_witness :
  exists a : attrs,
    fit None X_doc y_doc = Ok (Some a)
    /\ length (proba_y a) = length (uniy a)
    /\ (forall i c,
          nth_error (uniy a) i = Some c ->
          nth_error (proba_y a) i
          = Some (INR (count_occ Z.eq_dec y_doc c) / INR (length y_doc)))
    /\ np.sum (proba_y a) = 1
    /\ Forall (fun p => 0 < p) (proba_y a).
Proof.
  apply (fit_class_prior None X_doc y_doc).
  - reflexivity.
  - simpl. lia.
Defined.

(** ** Sign of the population variance *)

Section Variance.

Lemma sum_sq_nonneg {A : Type} (f : A -> R) (l : list A) :
  0 <= np.sum (map (fun k => f k ^ 2) l).
Proof.
  unfold np.sum. induction l as [|h t IH]; cbn [map fold_right]; [lra|].
  pose proof (pow2_ge_0 (f h)) as H. lra.
Qed.

Lemma sum_const {A : Type} (f : A -> R) (v : R) (l : list A) :
  (forall k, In k l -> f k = v) ->
  np.sum (map f l) = INR (length l) * v.
Proof.
  unfold np.sum. induction l as [|h t IH]; intro H.
  - simpl. ring.
  - cbn [map fold_right length]. rewrite S_INR, IH, (H h).
    + ring.
    + now left.
    + intros k Hk. apply H. now right.
Qed.

Variables (X : array2) (y : list Z) (c : Z) (j : nat).

Lemma var_spec_nonneg :
  (1 <= length (class_indices y c))%nat -> 0 <= var_spec X y c j.
Proof.
  intro H. unfold var_spec.
  apply Rmult_le_pos; [apply sum_sq_nonneg|].
  apply Rlt_le, Rinv_0_lt_compat, lt_0_INR. lia.
Qed.

Lemma mean_spec_const (v : R) :
  (1 <= length (class_indices y c))%nat ->
  (forall k, In k (class_indices y c) -> entry X k j = v) ->
  mean_spec X y c j = v.
Proof.
  intros H Hv. unfold mean_spec.
  rewrite (sum_const _ v _ Hv). field.
  apply not_0_INR. lia.
Qed.

Lemma var_spec_const (v : R) :
  (1 <= length (class_indices y c))%nat ->
  (forall k, In k (class_indices y c) -> entry X k j = v) ->
  var_spec X y c j = 0.
Proof.
  intros H Hv. unfold var_spec.
  rewrite (sum_const _ 0).
  - unfold Rdiv. ring.
  - intros k Hk. rewrite (Hv k Hk), (mean_spec_const v H Hv). ring.
Qed.

End Variance.

(** ** The variance of a constant column *)

(** C10, as stated, fails: three samples of one class all hold the binary64
    number nearest to 0.1 in their only feature; the rounded sum and
    division give the mean [0.10000000000000002], and the variance [fit]
    stores is [2^-112], strictly positive, not 0. *)
Lemma fit_constant_column_variance_not_zero :
  binary64.fit binary64.X_tenths binary64.y_tenths
  = Ok {| binary64.theta :=
            [[PrimFloat.add binary64.tenth (binary64.pow2_neg 56)]];
          binary64.sigma := [[binary64.pow2_neg 112]];
          binary64.proba_y := [PrimFloat.one];
          binary64.uniy := [1%Z] |}
  /\ PrimFloat.ltb PrimFloat.zero (binary64.pow2_neg 112) = true.
Proof. split; vm_compute; reflexivity. Qed.

(** In binary64 too the variance of a class with a single sample is 0:
    [x / 1 = x] and [x - x = 0] are exact. *)
Lemma fit_binary64_single_sample :
  binary64.fit (binary64.mkArray2 1 [[binary64.tenth]]) [1%Z]
  = Ok {| binary64.theta := [[binary64.tenth]];
          binary64.sigma := [[PrimFloat.zero]];
          binary64.proba_y := [PrimFloat.one];
          binary64.uniy := [1%Z] |}.
Proof. vm_compute. reflexivity. Qed.

(** C10, amended.  For every model that [fit] produces from a training
    matrix whose rows all have [n_cols X] features and a label vector with
    one label per row, every entry of [sigma] is non-negative, and the
    entries of a class that has a single sample are exactly 0; at an entry
    that is 0 the logarithm [np.log(np.pi*sigma[i][j])] of [predict_proba]
    is [-inf], not a finite value.  (For a class with several samples that
    agree on a feature the variance is 0 in exact arithmetic only: the
    rounding of the mean can leave a tiny positive value.) *)
Theorem fit_variance_nonneg_and_zero_for_single_sample
    (self : GNB) (X : array2) (y : list Z) :
  wf_array2 X ->
  length (rows X) = length y ->
  exists a : attrs,
    fit self X y = Ok (Some a)
    /\ forall i c,
         nth_error (uniy a) i = Some c ->
         exists s,
           nth_error (sigma a) i = Some s
           /\ length s = n_cols X
           /\ forall j,
                (j < n_cols X)%nat ->
                0 <= nth j s 0
                /\ (length (class_indices y c) = 1%nat -> nth j s 0 = 0)
                /\ (nth j s 0 = 0 -> np.log (np.pi * nth j s 0) = NInf).
Proof.
  intros Hwf Hlen. eexists. split; [apply (fit_ok self X y Hlen)|].
  cbn [uniy sigma]. intros i c Hi.
  assert (Hn : (1 <= length (class_indices y c))%nat).
  { apply nth_error_In in Hi. rewrite unique_In in Hi.
    rewrite <- count_true_indices, count_true_count_occ.
    exact (proj1 (count_occ_In Z.eq_dec y c) Hi). }
  eexists. split; [apply (map_nth_error _ _ _ Hi)|].
  rewrite (class_sigma_spec X y Hlen Hwf c).
  split; [now rewrite length_map, length_seq|].
  intros j Hj.
  assert (E : nth j (map (var_spec X y c) (seq 0 (n_cols X))) 0
              = var_spec X y c j).
  { rewrite (nth_indep _ 0 (var_spec X y c 0))
      by now rewrite length_map, length_seq.
    rewrite (map_nth (var_spec X y c)). now rewrite seq_nth. }
  rewrite E. split; [now apply var_spec_nonneg|]. split.
  - intro H1. destruct (class_indices y c) as [|k [|k' t]] eqn:Ek;
      try discriminate.
    apply (var_spec_const X y c j (entry X k j)); rewrite Ek.
    + simpl. lia.
    + intros k0 [<-|[]]. reflexivity.
  - intros ->. unfold np.log. rewrite Rmult_0_r.
    unfold Rltb. destruct (Rlt_dec 0 0); [lra | reflexivity].
Qed.

Lemma X_lone_wf : wf_array2 X_lone.
Proof. unfold wf_array2, X_lone; simpl. repeat constructor. Defined.

(** On a training set whose class 1 has one sample: both stored variances
    of that class are 0 and their logarithm is [-inf]. *)
Lemma fit_variance_nonneg_and_zero_for_single_sample_witness :
  exists (a : attrs) (s : list R),
    fit None X_lone y_lone = Ok (Some a)
    /\ nth_error (uniy a) 0 = Some 1%Z
    /\ nth_error (sigma a) 0 = Some s
    /\ length s = 2%nat
    /\ nth 0 s 0 = 0 /\ nth 1 s 0 = 0
    /\ np.log (np.pi * nth 0 s 0) = NInf.
Proof.
  destruct (fit_variance_nonneg_and_zero_for_single_sample
              None X_lone y_lone X_lone_wf eq_refl) as [a [Hfit H]].
  assert (Hu : nth_error (uniy a) 0 = Some 1%Z).
  { rewrite (fit_ok None X_lone y_lone eq_refl) in Hfit.
    injection Hfit as <-. reflexivity. }
  destruct (H 0%nat 1%Z Hu) as [s [Hs [Ls Hj]]].
  exists a, s. repeat (split; [assumption|]).
  destruct (Hj 0%nat) as [_ [H0 L0]]; [simpl; lia|].
  destruct (Hj 1%nat) as [_ [H1 _]]; [simpl; lia|].
  split; [apply H0; reflexivity|]. split; [apply H1; reflexivity|].
  apply L0, H0. reflexivity.
Defined.

(** ** Reordering the training samples *)

Section Reorder.

Lemma sum_Permutation (l l' : list R) :
  Permutation l l' -> np.sum l = np.sum l'.
Proof.
  unfold np.sum. induction 1; simpl; lra.
Qed.

Lemma filter_Permutation {A : Type} (f : A -> bool) (l l' : list A) :
  Permutation l l' -> Permutation (filter f l) (filter f l').
Proof.
  induction 1 as [| x l l' _ IH | x z l | l l' l'' _ IH1 _ IH2]; simpl.
  - constructor.
  - destruct (f x); [now constructor | assumption].
  - destruct (f x), (f z); try apply Permutation_refl. apply perm_swap.
  - now apply Permutation_trans with (filter f l').
Qed.

Lemma mean0_Permutation (d : nat) (A A' : list (list R)) :
  Permutation A A' -> np.mean0 d A = np.mean0 d A'.
Proof.
  intro HP. unfold np.mean0. apply map_ext. intro j.
  rewrite (Permutation_length HP). f_equal.
  apply sum_Permutation. unfold np.column. now apply Permutation_map.
Qed.

Lemma var0_Permutation (d : nat) (A A' : list (list R)) :
  Permutation A A' -> np.var0 d A = np.var0 d A'.
Proof.
  intro HP. unfold np.var0. rewrite (mean0_Permutation d A A' HP).
  apply mean0_Permutation. now apply Permutation_map.
Qed.

(** [X[y==c,:]] read on the list of (row, label) pairs. *)
Lemma select_pairs (X : array2) (y : list Z) (c : Z) :
  select X y c
  = map fst (filter (fun p => (snd p =? c)%Z) (combine (rows X) y)).
Proof.
  unfold select, eq_mask. generalize (rows X) as l.
  induction y as [|b t IH]; intros [|a l]; simpl; try reflexivity.
  destruct (b =? c)%Z; simpl; now rewrite IH.
Qed.

Lemma take_seq {A : Type} (d : A) (l : list A) :
  take d l (seq 0 (length l)) = l.
Proof.
  unfold take. induction l as [|a t IH]; [reflexivity|].
  cbn [length seq map nth]. rewrite <- seq_shift, map_map. cbn [nth].
  now rewrite IH.
Qed.

Lemma combine_take (l : list (list R)) (y : list Z) (p : list nat) :
  length l = length y ->
  combine (take [] l p) (take 0%Z y p) = take ([], 0%Z) (combine l y) p.
Proof.
  intro H. unfold take. induction p as [|k p IH]; simpl; [reflexivity|].
  now rewrite IH, (combine_nth l y k [] 0%Z H).
Qed.

Variables (X : array2) (y : list Z) (p : list nat).
Hypothesis Hlen : length (rows X) = length y.
Hypothesis Hp : Permutation p (seq 0 (length y)).

Lemma take_Permutation_labels : Permutation (take 0%Z y p) y.
Proof.
  rewrite <- (take_seq 0%Z y) at 2.
  unfold take. now apply Permutation_map.
Qed.

Lemma take_Permutation_pairs :
  Permutation (combine (rows (take_rows X p)) (take 0%Z y p))
              (combine (rows X) y).
Proof.
  unfold take_rows. cbn [rows]. rewrite (combine_take _ _ p Hlen).
  rewrite <- (take_seq ([], 0%Z) (combine (rows X) y)) at 2.
  unfold take. apply Permutation_map.
  now rewrite length_combine, Hlen, Nat.min_id.
Qed.

Lemma select_take (c : Z) :
  Permutation (select (take_rows X p) (take 0%Z y p) c) (select X y c).
Proof.
  rewrite !select_pairs.
  apply Permutation_map, filter_Permutation, take_Permutation_pairs.
Qed.

Lemma class_proba_take (c : Z) :
  class_proba (take 0%Z y p) c = class_proba y c.
Proof.
  unfold class_proba, np.size. rewrite !count_true_count_occ.
  pose proof take_Permutation_labels as HP.
  rewrite (Permutation_length HP).
  rewrite (proj1 (Permutation_count_occ Z.eq_dec (take 0%Z y p) y) HP c).
  reflexivity.
Qed.

Lemma fit_take (self : GNB) :
  fit self (take_rows X p) (take 0%Z y p) = fit self X y.
Proof.
  assert (Hlen' : length (rows (take_rows X p)) = length (take 0%Z y p)).
  { unfold take_rows, take. cbn [rows]. now rewrite !length_map. }
  rewrite (fit_ok self (take_rows X p) (take 0%Z y p) Hlen').
  rewrite (fit_ok self X y Hlen).
  rewrite (unique_Permutation (take 0%Z y p) y take_Permutation_labels).
  do 2 f_equal. f_equal; apply map_ext; intro c.
  - apply mean0_Permutation, select_take.
  - apply var0_Permutation, select_take.
  - apply class_proba_take.
Qed.

End Reorder.

(** C7. For every training input with one label per row and every
    permutation [p] of the sample indices, fitting on the rows [X[p]] with
    the labels [y[p]] yields the same estimator, hence the same [uniy],
    [theta], [sigma] and [proba_y], as fitting on [X] and [y]. *)
Theorem fit_permutation_invariant
    (self : GNB) (X : array2) (y : list Z) (p : list nat) :
  length (rows X) = length y ->
  Permutation p (seq 0 (length y)) ->
  fit self (take_rows X p) (take 0%Z y p) = fit self X y.
Proof. intros Hlen Hp. now apply fit_take. Qed.

Lemma fit_permutation_invariant_witness :
  fit None (take_rows X_doc [5; 4; 3; 2; 1; 0]%nat)
      (take 0%Z y_doc [5; 4; 3; 2; 1; 0]%nat)
  = fit None X_doc y_doc.
Proof.
  apply (fit_permutation_invariant None X_doc y_doc [5; 4; 3; 2; 1; 0]%nat).
  - reflexivity.
  - change (Permutation (rev (seq 0 6)) (seq 0 6)).
    apply Permutation_sym, Permutation_rev.
Defined.

(** ** Calls on degenerate input *)

(** C8. On an instance on which [fit] has never been called, [predict] and
    [predict_proba] both fail, whatever their argument, and the failure is the
    one raised for the missing fitted attribute [uniy]. *)
Theorem predict_before_fit_raises (X : array2) :
  predict None X = Raise (AttributeError "uniy")
  /\ predict_proba None X = Raise (AttributeError "uniy").
Proof. split; reflexivity. Qed.

(** C9, as stated, fails: with no sample at all [fit] returns a fitted
    estimator, and it does so too when [X] has a row and [y] has none. *)
Lemma fit_empty_training_set_succeeds :
  fit None (mkArray2 2 []) [] = Ok (Some empty_attrs)
  /\ fit None (mkArray2 2 [[1; 2]]) [] = Ok (Some empty_attrs)
  /\ ~ (exists e, fit None (mkArray2 2 []) [] = Raise e).
Proof.
  repeat split; try reflexivity. intros [e H]. discriminate H.
Qed.

(** C9, amended. [fit] has no check of its own.  With an empty label vector
    it succeeds, whatever [X] is, and stores a model without classes; with a
    non-empty label vector whose length is not the number of rows of [X] it
    fails with the IndexError of the boolean-mask selection [X[y==yi,:]],
    and stores nothing. *)
Theorem fit_on_invalid_input (self : GNB) (X : array2) (y : list Z) :
  (y = [] -> fit self X y = Ok (Some empty_attrs))
  /\ (y <> [] -> length (rows X) <> length y ->
      fit self X y = Raise IndexError).
Proof.
  split.
  - intros ->. reflexivity.
  - apply fit_mismatch.
Qed.

Lemma fit_on_invalid_input_witness :
  fit None (mkArray2 2 [[1; 2]]) [] = Ok (Some empty_attrs)
  /\ fit None (mkArray2 2 [[1; 2]]) [1; 2]%Z = Raise IndexError.
Proof.
  pose proof (fit_on_invalid_input None (mkArray2 2 [[1; 2]]) []) as H0.
  pose proof (fit_on_invalid_input None (mkArray2 2 [[1; 2]]) [1; 2]%Z) as H1.
  split.
  - apply (proj1 H0). reflexivity.
  - apply (proj2 H1); [discriminate | simpl; lia].
Defined.

(** ** Arithmetic of the extended reals, and a few list facts *)

Section ExtendedReals.

Lemma Rltb_true (x y : R) : x < y -> Rltb x y = true.
Proof. intro H. unfold Rltb. destruct (Rlt_dec x y); tauto. Qed.

Lemma Rltb_false (x y : R) : ~ x < y -> Rltb x y = false.
Proof. intro H. unfold Rltb. destruct (Rlt_dec x y); tauto. Qed.

Lemma Rleb_true (x y : R) : x <= y -> Rleb x y = true.
Proof. intro H. unfold Rleb. destruct (Rle_dec x y); tauto. Qed.

Lemma Rleb_false (x y : R) : ~ x <= y -> Rleb x y = false.
Proof. intro H. unfold Rleb. destruct (Rle_dec x y); tauto. Qed.

Lemma log_pos (x : R) : 0 < x -> np.log x = Fin (ln x).
Proof. intro H. unfold np.log. now rewrite Rltb_true. Qed.

Lemma xmul_1_r (n : xreal) : xmul n (Fin 1) = n.
Proof.
  destruct n; simpl; try reflexivity.
  - now rewrite Rmult_1_r.
  - unfold inf_times. now rewrite Rltb_true by lra.
  - unfold inf_times. now rewrite Rltb_true by lra.
Qed.

Lemma xsum_Fin (l : list R) : np.xsum (map Fin l) = Fin (np.sum l).
Proof.
  unfold np.xsum, np.sum. induction l as [|h t IH]; simpl; [reflexivity|].
  now rewrite IH.
Qed.

(** The order in which the loop adds the four terms. *)
Lemma score_assoc (lp n : xreal) (q c : R) :
  xadd lp (xadd (xsub (xmul n (Fin 1)) (Fin q)) (Fin (c * 1)))
  = xadd (xsub (xadd lp n) (Fin q)) (Fin c).
Proof.
  rewrite xmul_1_r, Rmult_1_r.
  destruct lp, n; simpl; try reflexivity. f_equal. ring.
Qed.

End ExtendedReals.

Section Lists.

Context {A B : Type}.

Lemma nth_map_in (f : A -> B) (l : list A) (k : nat) (d : A) (e : B) :
  (k < length l)%nat -> nth k (map f l) e = f (nth k l d).
Proof.
  intro H. rewrite (nth_indep _ e (f d)) by now rewrite length_map.
  apply map_nth.
Qed.

Lemma combine_map_self (f : A -> B) (l : list A) :
  combine l (map f l) = map (fun x => (x, f x)) l.
Proof. induction l as [|h t IH]; simpl; [reflexivity|]. now rewrite IH. Qed.

Lemma combine_map_map {C : Type} (f : C -> A) (g : C -> B) (l : list C) :
  combine (map f l) (map g l) = map (fun x => (f x, g x)) l.
Proof. induction l as [|h t IH]; simpl; [reflexivity|]. now rewrite IH. Qed.

Lemma map_repeat (f : A -> B) (v : A) (n : nat) :
  map f (repeat v n) = repeat (f v) n.
Proof. induction n; simpl; [reflexivity|]. now rewrite IHn. Qed.

Lemma repeat_as_map (v : B) (l : list A) :
  repeat v (length l) = map (fun _ => v) l.
Proof. induction l as [|h t IH]; simpl; [reflexivity|]. now rewrite IH. Qed.

Lemma map_seq_nth (d : A) (l : list A) (f : A -> B) :
  map f l = map (fun j => f (nth j l d)) (seq 0 (length l)).
Proof.
  rewrite <- (take_seq d l) at 1. unfold take. now rewrite map_map.
Qed.

End Lists.

(** Transposing a list of columns that are all images of the same rows. *)
Lemma transpose_map {A B I : Type} (d : B) (f : I -> A -> B)
    (cls : list I) (l : list A) :
  transpose d (length l) (map (fun i => map (f i) l) cls)
  = map (fun x => map (fun i => f i x) cls) l.
Proof.
  unfold transpose. destruct l as [|x0 l'] eqn:El; [reflexivity|].
  rewrite <- El. assert (Hx : A) by exact x0. clear El x0 l'.
  rewrite (map_seq_nth Hx l (fun x => map (fun i => f i x) cls)).
  apply map_ext_in. intros k Hk. apply in_seq in Hk.
  rewrite map_map. apply map_ext. intro i.
  apply nth_map_in. lia.
Qed.

(** ** [predict_proba] computes the formula *)

Section PredictProba.

Lemma sub_row_same (x t : list R) :
  length x = length t ->
  sub_row x t = map (fun j => nth j x 0 - nth j t 0) (seq 0 (length x)).
Proof.
  intro H. unfold sub_row. rewrite H, Nat.eqb_refl.
  rewrite (map_seq_nth (0, 0) (combine x t)).
  rewrite length_combine, <- H, Nat.min_id.
  apply map_ext. intro j. now rewrite (combine_nth x t j 0 0 H).
Qed.

Variables (a : attrs) (X : array2).
Hypothesis Hwf : wf_array2 X.

Lemma class_scores_spec (i : nat) (p : R) (s t : list R) :
  nth_error (proba_y a) i = Some p ->
  nth_error (sigma a) i = Some s ->
  nth_error (theta a) i = Some t ->
  length s = n_cols X ->
  length t = n_cols X ->
  class_scores a X i
  = Ok (map (fun x => joint_log_likelihood_spec a (n_cols X) x i) (rows X)).
Proof.
  intros Hp Hs Ht Ls Lt. unfold class_scores, getitem, broadcast_sub.
  rewrite Hp, Hs, Ht. cbn [bind]. rewrite Lt, Nat.eqb_refl.
  cbn [bind orb]. f_equal.
  unfold np.ones, np.size. rewrite (repeat_as_map 1 (rows X)).
  rewrite !map_map, combine_map_map, map_map, combine_map_map, !map_map.
  apply map_ext_in. intros x Hx. cbn [fst snd].
  unfold wf_array2 in Hwf. rewrite Forall_forall in Hwf.
  specialize (Hwf x Hx).
  rewrite score_assoc. unfold joint_log_likelihood_spec.
  rewrite (nth_error_nth _ _ 0 Hp), (nth_error_nth _ _ [] Hs),
    (nth_error_nth _ _ [] Ht).
  rewrite sub_row_same by congruence. rewrite Hwf, map_map.
  rewrite (map_seq_nth 0 s), (map_seq_nth 0 s (fun v => 2 * v)), Ls.
  reflexivity.
Qed.

Lemma proba_loop_app (range : list nat) :
  forall acc,
    proba_loop a X range acc
    = (cols <- mapM (class_scores a X) range ;; Ok (acc ++ cols)).
Proof.
  induction range as [|i rest IH]; intro acc; simpl.
  - now rewrite app_nil_r.
  - destruct (class_scores a X i) as [v|e]; simpl; [|reflexivity].
    rewrite IH. destruct (mapM (class_scores a X) rest); simpl;
      [|reflexivity].
    now rewrite <- app_assoc.
Qed.

Lemma normalize_rows_spec (scores : list (list xreal)) :
  normalize_rows (map (map np.exp) scores) = map posterior_spec scores.
Proof.
  unfold normalize_rows. rewrite combine_map_self, !map_map.
  apply map_ext. intro row. reflexivity.
Qed.

Hypothesis Hshape : fitted_shape a (n_cols X).

Lemma mapM_class_scores (range : list nat) :
  Forall (fun i => (i < length (uniy a))%nat) range ->
  mapM (class_scores a X) range
  = Ok (map (fun i =>
               map (fun x => joint_log_likelihood_spec a (n_cols X) x i)
                   (rows X))
            range).
Proof.
  destruct Hshape as [Lth [Lsg [Lpr [Fth Fsg]]]].
  induction 1 as [|i rest Hi _ IH]; simpl; [reflexivity|].
  destruct (nth_error (proba_y a) i) as [p|] eqn:Hp;
    [|apply nth_error_None in Hp; lia].
  destruct (nth_error (sigma a) i) as [s|] eqn:Hs;
    [|apply nth_error_None in Hs; lia].
  destruct (nth_error (theta a) i) as [t|] eqn:Ht;
    [|apply nth_error_None in Ht; lia].
  rewrite Forall_forall in Fth, Fsg.
  rewrite (class_scores_spec i p s t Hp Hs Ht
             (Fsg s (nth_error_In _ _ Hs)) (Fth t (nth_error_In _ _ Ht))).
  simpl. now rewrite IH.
Qed.

(** With at least one class, [predict_proba] returns the matrix of the
    formula. *)
Lemma predict_proba_formula :
  uniy a <> [] ->
  predict_proba (Some a) X = Ok (predict_proba_spec a X).
Proof.
  intro Hne. unfold predict_proba, np.size.
  rewrite proba_loop_app, mapM_class_scores.
  - cbn [bind app].
    destruct (uniy a) as [|c0 u'] eqn:Eu; [congruence|].
    cbn [length seq map]. rewrite <- seq_shift.
    change ((map (fun x => joint_log_likelihood_spec a (n_cols X) x 0)
               (rows X))
            :: map (fun i =>
                      map (fun x =>
                             joint_log_likelihood_spec a (n_cols X) x i)
                          (rows X))
                 (map S (seq 0 (length u'))))
      with (map (fun i =>
                   map (fun x => joint_log_likelihood_spec a (n_cols X) x i)
                       (rows X))
              (0%nat :: map S (seq 0 (length u')))).
    rewrite (transpose_map NaN
               (fun i x => joint_log_likelihood_spec a (n_cols X) x i)).
    rewrite normalize_rows_spec, map_map.
    unfold predict_proba_spec. rewrite Eu.
    cbn [length seq]. now rewrite <- seq_shift.
  - apply Forall_forall. intros i Hi. apply in_seq in Hi. lia.
Qed.

End PredictProba.

(** ** Shapes and signs of a fitted model *)

Lemma fit_inv (self : GNB) (X : array2) (y : list Z) (a : attrs) :
  length (rows X) = length y ->
  fit self X y = Ok (Some a) ->
  a = {| theta := map (class_theta X y) (np.unique y);
         sigma := map (class_sigma X y) (np.unique y);
         proba_y := map (class_proba y) (np.unique y);
         uniy := np.unique y |}.
Proof. intros Hlen H. rewrite (fit_ok self X y Hlen) in H. congruence. Qed.

Lemma fit_shape (self : GNB) (X : array2) (y : list Z) (a : attrs) :
  length (rows X) = length y ->
  fit self X y = Ok (Some a) ->
  fitted_shape a (n_cols X).
Proof.
  intros Hlen H. rewrite (fit_inv self X y a Hlen H).
  unfold fitted_shape. cbn [theta sigma proba_y uniy].
  rewrite !length_map. repeat split; try reflexivity.
  - apply Forall_forall. intros r Hr. apply in_map_iff in Hr.
    destruct Hr as [c [<- _]]. unfold class_theta, np.mean0.
    now rewrite length_map, length_seq.
  - apply Forall_forall. intros r Hr. apply in_map_iff in Hr.
    destruct Hr as [c [<- _]]. unfold class_sigma, np.var0, np.mean0.
    now rewrite length_map, length_seq.
Qed.

Lemma fit_classes_nonempty (self : GNB) (X : array2) (y : list Z) (a : attrs) :
  length (rows X) = length y -> y <> [] ->
  fit self X y = Ok (Some a) ->
  uniy a <> [].
Proof.
  intros Hlen Hy H. rewrite (fit_inv self X y a Hlen H). cbn [uniy].
  now apply unique_nonempty.
Qed.

Lemma class_proba_pos (y : list Z) (c : Z) : In c y -> 0 < class_proba y c.
Proof.
  intro Hc. unfold class_proba, np.size. rewrite count_true_count_occ.
  apply Rdiv_lt_0_compat; apply lt_0_INR.
  - exact (proj1 (count_occ_In Z.eq_dec y c) Hc).
  - destruct y; [contradiction | simpl; lia].
Qed.

Lemma fit_prior_pos (self : GNB) (X : array2) (y : list Z) (a : attrs) :
  length (rows X) = length y ->
  fit self X y = Ok (Some a) ->
  Forall (fun p => 0 < p) (proba_y a).
Proof.
  intros Hlen H. rewrite (fit_inv self X y a Hlen H). cbn [proba_y].
  apply Forall_forall. intros p Hp. apply in_map_iff in Hp.
  destruct Hp as [c [<- Hc]]. rewrite unique_In in Hc.
  now apply class_proba_pos.
Qed.

(** Outside the input contract [predict_proba] raises: a model without
    classes has no axis 1 to sum over, and a feature count that does not
    broadcast against the stored means stops the subtraction. *)
Lemma predict_proba_without_classes (X : array2) :
  predict_proba (Some empty_attrs) X = Raise ValueError.
Proof. reflexivity. Qed.

Lemma predict_proba_feature_mismatch (a : attrs) (d : nat) (X : array2) :
  fitted_shape a d ->
  uniy a <> [] ->
  n_cols X <> d -> n_cols X <> 1%nat -> d <> 1%nat ->
  predict_proba (Some a) X = Raise ValueError.
Proof.
  destruct a as [th sg pr u]. unfold fitted_shape.
  cbn [theta sigma proba_y uniy].
  intros [Lth [Lsg [Lpr [Fth _]]]] Hne Hd H1 Hd1.
  unfold predict_proba, np.size. cbn [uniy].
  destruct u as [|c0 u]; [congruence|]. cbn [length seq proba_loop].
  cbn [length] in Lth, Lsg, Lpr.
  destruct pr as [|p0 ps]; [discriminate|].
  destruct sg as [|s0 ss]; [discriminate|].
  destruct th as [|t0 ts]; [discriminate|].
  inversion Fth as [|? ? Ht0 _]; subst.
  unfold class_scores, getitem, broadcast_sub.
  cbn [nth_error bind theta sigma proba_y].
  destruct (Nat.eqb_spec (n_cols X) (length t0)); [congruence|].
  destruct (Nat.eqb_spec (n_cols X) 1); [congruence|].
  destruct (Nat.eqb_spec (length t0) 1); [congruence|].
  reflexivity.
Qed.

(** C1. For every model that [fit] produces from a training set with at
    least one sample and one label per row, and every input matrix [X] whose
    rows all have the feature count of the training matrix, [predict_proba]
    returns, for each row [x] of [X] and each class index [i], the value
    [exp(jll[i]) / sum_i' exp(jll[i'])] where
    [jll[i] = ln(proba_y[i]) + sum_j(-0.5 * ln(pi * sigma[i][j]))
              - sum_j((x_j - theta[i][j])^2) + sum_j(2 * sigma[i][j])]:
    the squared deviation is not divided by the variance and the logarithm
    is taken of [pi * sigma], not of [2 * pi * sigma]. *)
Theorem predict_proba_computes_formula
    (self : GNB) (Xtrain : array2) (ytrain : list Z) (a : attrs) (X : array2) :
  length (rows Xtrain) = length ytrain ->
  ytrain <> [] ->
  fit self Xtrain ytrain = Ok (Some a) ->
  wf_array2 X ->
  n_cols X = n_cols Xtrain ->
  predict_proba (Some a) X = Ok (predict_proba_spec a X).
Proof.
  intros Hlen Hy Hfit Hwf Hd. apply predict_proba_formula.
  - assumption.
  - rewrite Hd. exact (fit_shape self Xtrain ytrain a Hlen Hfit).
  - exact (fit_classes_nonempty self Xtrain ytrain a Hlen Hy Hfit).
Qed.

Lemma fit_doc : fit None X_doc y_doc = Ok (Some a_doc).
Proof. apply fit_ok. reflexivity. Defined.

Lemma X_query_wf : wf_array2 X_query.
Proof. unfold wf_array2, X_query; simpl. repeat constructor. Defined.

Lemma predict_proba_computes_formula_witness :
  predict_proba (Some a_doc) X_query = Ok (predict_proba_spec a_doc X_query).
Proof.
  apply (predict_proba_computes_formula None X_doc y_doc a_doc X_query).
  - reflexivity.
  - discriminate.
  - exact fit_doc.
  - exact X_query_wf.
  - reflexivity.
Defined.

(** ** Rows of [predict_proba] under positive variances *)

Section Normalization.

Lemma sum_pos (l : list R) :
  l <> [] -> Forall (fun v => 0 < v) l -> 0 < np.sum l.
Proof.
  unfold np.sum. intros Hne H. induction H as [|h t Hh Ht IH];
    [congruence|].
  cbn [fold_right]. destruct t as [|h' t'].
  - simpl. lra.
  - assert (0 < fold_right Rplus 0 (h' :: t')) by (apply IH; discriminate).
    lra.
Qed.

Lemma sum_div (l : list R) (s : R) :
  np.sum (map (fun v => v / s) l) = np.sum l / s.
Proof.
  unfold np.sum. induction l as [|h t IH]; cbn [map fold_right].
  - unfold Rdiv. ring.
  - rewrite IH. unfold Rdiv. ring.
Qed.

Lemma exp_all_pos (l : list R) : Forall (fun v => 0 < v) (map exp l).
Proof.
  apply Forall_forall. intros v Hv. apply in_map_iff in Hv.
  destruct Hv as [r [<- _]]. apply exp_pos.
Qed.

Lemma posterior_spec_real (scores : list R) :
  scores <> [] ->
  posterior_spec (map Fin scores) = map Fin (posterior_real scores).
Proof.
  intro Hne. unfold posterior_spec, posterior_real.
  assert (Hs : 0 < np.sum (map exp scores)).
  { apply sum_pos; [|apply exp_all_pos]. now destruct scores. }
  rewrite (map_map Fin np.exp). cbn [np.exp].
  rewrite <- (map_map exp Fin), xsum_Fin, !map_map.
  apply map_ext. intro r. cbn [xdiv]. now rewrite Rltb_true.
Qed.

Lemma posterior_real_nonneg (scores : list R) :
  Forall (fun v => 0 <= v) (posterior_real scores).
Proof.
  unfold posterior_real. destruct scores as [|s0 t]; [constructor|].
  assert (Hs : 0 < np.sum (map exp (s0 :: t))).
  { apply sum_pos; [discriminate | apply exp_all_pos]. }
  apply Forall_forall. intros v Hv. apply in_map_iff in Hv.
  destruct Hv as [e [<- He]]. apply in_map_iff in He.
  destruct He as [r [<- _]].
  apply Rlt_le, Rdiv_lt_0_compat; [apply exp_pos | assumption].
Qed.

Lemma posterior_real_sum (scores : list R) :
  scores <> [] -> np.sum (posterior_real scores) = 1.
Proof.
  intro Hne. unfold posterior_real. rewrite sum_div.
  apply Rdiv_diag.
  assert (Hs : 0 < np.sum (map exp scores)).
  { apply sum_pos; [|apply exp_all_pos]. now destruct scores. }
  lra.
Qed.

Variables (a : attrs) (d : nat).
Hypothesis Hshape : fitted_shape a d.
Hypothesis Hprior : Forall (fun p => 0 < p) (proba_y a).
Hypothesis Hsigma : Forall (Forall (fun v => 0 < v)) (sigma a).

Lemma jll_spec_real (x : list R) (i : nat) :
  (i < length (uniy a))%nat ->
  joint_log_likelihood_spec a d x i = Fin (jll_real a d x i).
Proof.
  intro Hi. destruct Hshape as [_ [Lsg [Lpr [_ Fsg]]]].
  unfold joint_log_likelihood_spec, jll_real.
  rewrite Forall_forall in Hprior, Hsigma, Fsg.
  assert (Hs : In (nth i (sigma a) []) (sigma a)) by (apply nth_In; lia).
  rewrite log_pos by (apply Hprior, nth_In; lia).
  rewrite (map_ext_in _
             (fun j => Fin (-0.5 * ln (PI * nth j (nth i (sigma a) []) 0)))).
  - rewrite <- (map_map _ Fin), xsum_Fin. cbn [xadd xsub xopp].
    f_equal.
  - intros j Hj. apply in_seq in Hj.
    rewrite log_pos; [reflexivity|].
    apply Rmult_lt_0_compat; [apply PI_RGT_0|].
    specialize (Hsigma _ Hs). rewrite Forall_forall in Hsigma.
    apply Hsigma, nth_In. rewrite (Fsg _ Hs). lia.
Qed.

End Normalization.

(** With positive priors and variances every score is finite, and so is
    every entry of the result. *)
Lemma predict_proba_real (a : attrs) (X : array2) :
  wf_array2 X ->
  fitted_shape a (n_cols X) ->
  uniy a <> [] ->
  Forall (fun p => 0 < p) (proba_y a) ->
  Forall (Forall (fun v => 0 < v)) (sigma a) ->
  predict_proba (Some a) X
  = Ok (map (fun x =>
               map Fin
                 (posterior_real
                    (map (jll_real a (n_cols X) x)
                         (seq 0 (length (uniy a))))))
            (rows X)).
Proof.
  intros Hwf Hshape Hne Hprior Hsg.
  rewrite (predict_proba_formula a X Hwf Hshape Hne).
  f_equal. unfold predict_proba_spec. apply map_ext. intro x.
  rewrite <- posterior_spec_real
    by (destruct (uniy a); [congruence | discriminate]).
  f_equal. rewrite map_map. apply map_ext_in. intros i Hi. apply in_seq in Hi.
  apply (jll_spec_real a (n_cols X) Hshape Hprior Hsg). lia.
Qed.

(** ** [np.argmax] returns the first position of the maximum *)

Section Argmax.

Lemma xle_refl (a : xreal) : a <> NaN -> xle a a = true.
Proof.
  destruct a; simpl; try congruence. intros _. apply Rleb_true. lra.
Qed.

Lemma xle_trans (a b c : xreal) :
  xle a b = true -> xle b c = true -> xle a c = true.
Proof.
  destruct a, b, c; simpl; try congruence. unfold Rleb.
  destruct (Rle_dec r r0), (Rle_dec r0 r1), (Rle_dec r r1);
    try congruence. lra.
Qed.

Lemma xle_total (a b : xreal) :
  a <> NaN -> b <> NaN -> xle a b = false -> xle b a = true.
Proof.
  destruct a, b; simpl; try congruence. unfold Rleb.
  destruct (Rle_dec r r0), (Rle_dec r0 r); try congruence. lra.
Qed.

Lemma xle_not_nan_l (a b : xreal) : xle a b = true -> a <> NaN.
Proof. destruct a; simpl; congruence. Qed.

Lemma xle_not_nan_r (a b : xreal) : xle a b = true -> b <> NaN.
Proof. destruct a, b; simpl; congruence. Qed.

Lemma isnan_false (a : xreal) : isnan a = false -> a <> NaN.
Proof. destruct a; simpl; congruence. Qed.

Lemma isnan_true (a : xreal) : isnan a = true -> a = NaN.
Proof. destruct a; simpl; congruence. Qed.

(** The scan keeps the first position of the maximum of what it has read. *)
Lemma argmax_scan_spec (l : list xreal) :
  forall (pre : list xreal) (mp : xreal) (k : nat),
    mp <> NaN ->
    nth_error pre k = Some mp ->
    Forall (fun w => xle w mp = true) pre ->
    (forall j w, (j < k)%nat -> nth_error pre j = Some w ->
                 xle mp w = false) ->
    first_max (pre ++ l) (np.argmax_scan mp k (length pre) l).
Proof.
  induction l as [|x l' IH]; intros pre mp k Hmp Hk Hall Hfirst.
  - cbn [np.argmax_scan]. rewrite app_nil_r. split.
    + exists mp. split; [assumption | now right].
    + intros j Hj [w [Hw [->|Hmax]]].
      * rewrite Forall_forall in Hall.
        specialize (Hall NaN (nth_error_In _ _ Hw)). discriminate.
      * rewrite Forall_forall in Hmax.
        specialize (Hmax mp (nth_error_In _ _ Hk)).
        rewrite (Hfirst j w Hj Hw) in Hmax. discriminate.
  - cbn [np.argmax_scan].
    assert (Hkl : (k < length pre)%nat)
      by (apply nth_error_Some; congruence).
    replace (pre ++ x :: l') with ((pre ++ [x]) ++ l')
      by now rewrite <- app_assoc.
    replace (S (length pre)) with (length (pre ++ [x]))
      by (rewrite length_app; simpl; lia).
    destruct (xle x mp) eqn:Ex; cbn [negb].
    + apply IH; try assumption.
      * rewrite nth_error_app1 by assumption. assumption.
      * apply Forall_app. split; [assumption | now repeat constructor].
      * intros j w Hj Hw. apply (Hfirst j w Hj).
        rewrite nth_error_app1 in Hw by lia. assumption.
    + destruct (isnan x) eqn:En.
      * apply isnan_true in En. subst x.
        rewrite <- app_assoc. cbn [app]. split.
        -- exists NaN. split; [|now left].
           rewrite nth_error_app2 by lia. now rewrite Nat.sub_diag.
        -- intros j Hj [w [Hw Hmax]].
           rewrite nth_error_app1 in Hw by assumption.
           rewrite Forall_forall in Hall.
           pose proof (Hall w (nth_error_In _ _ Hw)) as Hwm.
           destruct Hmax as [->|Hmax]; [discriminate|].
           rewrite Forall_forall in Hmax.
           assert (Hn : xle NaN w = true)
             by (apply Hmax, in_or_app; right; now left).
           discriminate.
      * apply isnan_false in En.
        assert (Hmx : xle mp x = true) by now apply xle_total.
        apply IH.
        -- assumption.
        -- rewrite nth_error_app2 by lia. now rewrite Nat.sub_diag.
        -- apply Forall_app. split.
           ++ rewrite Forall_forall in *. intros w Hw.
              apply (xle_trans w mp x); auto.
           ++ repeat constructor. now apply xle_refl.
        -- intros j w Hj Hw. rewrite nth_error_app1 in Hw by assumption.
           destruct (xle x w) eqn:Exw; [|reflexivity].
           rewrite Forall_forall in Hall.
           pose proof (Hall w (nth_error_In _ _ Hw)) as Hwm.
           rewrite (xle_trans x w mp Exw Hwm) in Ex. discriminate.
Qed.

Lemma argmax_spec (row : list xreal) :
  row <> [] -> exists i, np.argmax row = Ok i /\ first_max row i.
Proof.
  destruct row as [|x l]; [congruence|]. intros _.
  eexists. split; [reflexivity|].
  destruct (isnan x) eqn:En.
  - apply isnan_true in En. subst x. split.
    + exists NaN. split; [reflexivity | now left].
    + intros j Hj. lia.
  - apply isnan_false in En.
    apply (argmax_scan_spec l [x] x 0 En eq_refl).
    + repeat constructor. now apply xle_refl.
    + intros j w Hj. lia.
Qed.

Lemma first_max_lt (row : list xreal) (i : nat) :
  first_max row i -> (i < length row)%nat.
Proof.
  intros [[v [Hv _]] _]. apply nth_error_Some. congruence.
Qed.

End Argmax.

(** ** [predict] against [predict_proba] *)

Section Predict.

Lemma mapM_length {A B : Type} (f : A -> result B) (l : list A) :
  forall ys, mapM f l = Ok ys -> length ys = length l.
Proof.
  induction l as [|h t IH]; simpl; intros ys H.
  - now inversion H.
  - destruct (f h) as [b|e]; simpl in H; [|discriminate].
    destruct (mapM f t) as [bs|e]; simpl in H; [|discriminate].
    inversion H. simpl. f_equal. now apply IH.
Qed.

(** The shape of a result of [predict_proba]: one row per row of [X], one
    column per class, and at least one class. *)
Lemma predict_proba_shape (a : attrs) (X : array2) (P : list (list xreal)) :
  predict_proba (Some a) X = Ok P ->
  length P = length (rows X)
  /\ Forall (fun row => length row = length (uniy a)) P
  /\ uniy a <> [].
Proof.
  unfold predict_proba, np.size. rewrite proba_loop_app.
  destruct (mapM (class_scores a X) (seq 0 (length (uniy a))))
    as [cols|e] eqn:E; cbn [bind app]; [|discriminate].
  apply mapM_length in E. rewrite length_seq in E.
  destruct cols as [|c0 cs] eqn:Ec; [discriminate|].
  rewrite <- Ec in *. intro H. injection H as <-.
  unfold normalize_rows, transpose. split; [|split].
  - now rewrite length_map, length_combine, !length_map, length_seq,
      Nat.min_id.
  - apply Forall_forall. intros row Hrow. apply in_map_iff in Hrow.
    destruct Hrow as [[r s] [<- Hin]]. apply in_combine_l in Hin.
    cbn [fst snd]. rewrite length_map.
    apply in_map_iff in Hin. destruct Hin as [r' [<- Hin]].
    apply in_map_iff in Hin. destruct Hin as [k [<- _]].
    now rewrite !length_map.
  - intro Hu. rewrite Hu, Ec in E. discriminate.
Qed.

Lemma predict_labels (u : list Z) (P : list (list xreal)) :
  u <> [] ->
  Forall (fun row => length row = length u) P ->
  exists labels,
    (idx <- mapM np.argmax P ;; mapM (getitem u) idx) = Ok labels
    /\ Forall2 (fun row label =>
                  exists i, first_max row i /\ nth_error u i = Some label)
               P labels.
Proof.
  intros Hu. induction 1 as [|row P' Hrow _ IH].
  - exists []. split; [reflexivity | constructor].
  - destruct IH as [labels [Hl HF]].
    destruct (argmax_spec row) as [i [Hi Hmax]].
    { destruct row; [|discriminate]. destruct u; [congruence|discriminate]. }
    destruct (nth_error u i) as [c|] eqn:Hc.
    2:{ apply nth_error_None in Hc. apply first_max_lt in Hmax. lia. }
    exists (c :: labels). split.
    + cbn [mapM]. rewrite Hi. cbn [bind].
      destruct (mapM np.argmax P') as [idx|e]; cbn [bind] in *;
        [|discriminate].
      cbn [mapM]. unfold getitem at 1. rewrite Hc. cbn [bind].
      now rewrite Hl.
    + constructor; [|assumption]. now exists i.
Qed.

End Predict.

(** C4. For every estimator and every input matrix [X]: when
    [predict_proba] returns a matrix, [predict] returns one label per row of
    [X], in row order, and the label for a row is [uniy[i]] where [i] is the
    lowest index at which the row of probabilities takes its maximum; when
    [predict_proba] fails, [predict] fails in the same way. *)
Theorem predict_is_first_argmax_of_predict_proba (self : GNB) (X : array2) :
  match predict_proba self X with
  | Raise e => predict self X = Raise e
  | Ok proba =>
      exists (a : attrs) (labels : list Z),
        self = Some a
        /\ predict self X = Ok labels
        /\ length labels = length (rows X)
        /\ Forall2 (fun row label =>
                      exists i, first_max row i
                                /\ nth_error (uniy a) i = Some label)
                   proba labels
  end.
Proof.
  destruct self as [a|]; [|reflexivity].
  destruct (predict_proba (Some a) X) as [P|e] eqn:E.
  - destruct (predict_proba_shape a X P E) as [Hlen [Hrows Hu]].
    destruct (predict_labels (uniy a) P Hu Hrows) as [labels [Hl HF]].
    exists a, labels. split; [reflexivity|]. split; [|split].
    + unfold predict. rewrite E. exact Hl.
    + rewrite <- Hlen. symmetry. exact (Forall2_length HF).
    + exact HF.
  - unfold predict. now rewrite E.
Qed.

(** ** The docstring example *)

Lemma a_doc_values : a_doc = a_doc_explicit.
Proof.
  unfold a_doc, a_doc_explicit.
  change (np.unique y_doc) with [1; 2]%Z. cbn [map].
  unfold class_theta, class_sigma, class_proba.
  change (select X_doc y_doc 1) with [[-1; -1]; [-2; -1]; [-3; -2]].
  change (select X_doc y_doc 2) with [[1; 1]; [2; 1]; [3; 2]].
  change (count_true (eq_mask y_doc 1)) with 3%nat.
  change (count_true (eq_mask y_doc 2)) with 3%nat.
  change (np.size y_doc) with 6%nat.
  f_equal.
  - unfold np.mean0, np.column, np.sum, X_doc.
    cbn [n_cols seq map nth fold_right length INR].
    list_eq; lra.
  - unfold np.var0, np.mean0, np.column, np.sum, X_doc.
    cbn [n_cols seq map nth fold_right length INR combine fst snd].
    list_eq; lra.
  - cbn [INR]. list_eq; lra.
Qed.

Lemma a_doc_shape : fitted_shape a_doc_explicit 2.
Proof. unfold fitted_shape; simpl. repeat split; repeat constructor. Qed.

Lemma a_doc_sigma_pos :
  Forall (Forall (fun v => 0 < v)) (sigma a_doc_explicit).
Proof. simpl. repeat constructor; lra. Qed.

Lemma a_doc_prior_pos : Forall (fun v => 0 < v) (proba_y a_doc_explicit).
Proof. simpl. repeat constructor; lra. Qed.

(** The query is closer to the mean of class 1: its score is the larger. *)
Lemma scores_doc :
  jll_real a_doc_explicit 2 [-0.8; -1] 1
  < jll_real a_doc_explicit 2 [-0.8; -1] 0.
Proof.
  unfold jll_real, np.sum.
  cbn [a_doc_explicit proba_y sigma theta nth seq map fold_right].
  lra.
Qed.

Lemma predict_doc : predict (Some a_doc_explicit) X_query = Ok [1%Z].
Proof.
  unfold predict.
  rewrite (predict_proba_real a_doc_explicit X_query X_query_wf a_doc_shape).
  - cbn [X_query rows n_cols map bind a_doc_explicit uniy length seq].
    unfold posterior_real.
    cbn [map mapM np.argmax isnan np.argmax_scan xle bind].
    rewrite Rleb_true; [reflexivity|].
    apply Rmult_le_compat_r.
    + apply Rlt_le, Rinv_0_lt_compat, sum_pos; [discriminate|].
      repeat constructor; apply exp_pos.
    + apply Rlt_le, exp_increasing, scores_doc.
  - discriminate.
  - exact a_doc_prior_pos.
  - exact a_doc_sigma_pos.
Qed.

(** C5. After [fit] on the six samples of the class docstring, labelled
    [1, 1, 1, 2, 2, 2], [predict] on the single row [[-0.8, -1]] returns
    [[1]]. *)
Theorem docstring_example_predicts_class_1 :
  exists self : GNB,
    fit None X_doc y_doc = Ok self
    /\ predict self X_query = Ok [1%Z].
Proof.
  exists (Some a_doc). split; [exact fit_doc|].
  rewrite a_doc_values. exact predict_doc.
Qed.

(** ** [predict_proba] within and beyond the range of float64 *)

Section Float64Range.

Lemma tiny_pos : 0 < float64.tiny.
Proof. unfold float64.tiny. apply Rinv_0_lt_compat, pow_lt. lra. Qed.

Lemma huge_pos : 0 < float64.huge.
Proof.
  unfold float64.huge.
  assert (2 ^ 970 < 2 ^ 1024) by (apply Rlt_pow; [lra | lia]).
  lra.
Qed.

Lemma exp_INR_ge (n : nat) : 2 ^ n <= exp (INR n).
Proof.
  induction n as [|n IH].
  - simpl. rewrite exp_0. lra.
  - rewrite S_INR, exp_plus. cbn [pow].
    assert (H2 : 2 <= exp 1) by (pose proof (exp_ineq1_le 1); lra).
    assert (Hp : 0 <= 2 ^ n) by (apply pow_le; lra).
    rewrite Rmult_comm. apply Rmult_le_compat; lra.
Qed.

(** A score at or below [-1075] underflows. *)
Lemma exp_underflows (s : R) : s <= - 1075 -> exp s <= float64.tiny.
Proof.
  intro H. unfold float64.tiny.
  apply Rle_trans with (exp (- INR 1075)).
  - destruct H as [H | ->].
    + left. apply exp_increasing. rewrite INR_IZR_INZ. simpl. lra.
    + right. f_equal. rewrite INR_IZR_INZ. simpl. lra.
  - rewrite exp_Ropp. apply Rinv_le_contravar; [apply pow_lt; lra|].
    apply exp_INR_ge.
Qed.

Lemma exp_value_nonneg (s : R) : 0 <= exp_value s.
Proof.
  unfold exp_value. destruct (Rleb (exp s) float64.tiny); [lra|].
  left. apply exp_pos.
Qed.

Lemma exp_value_le (s : R) : exp_value s <= exp s.
Proof.
  unfold exp_value. destruct (Rleb (exp s) float64.tiny); [|lra].
  left. apply exp_pos.
Qed.

Lemma exp_value_above (s : R) : float64.tiny < exp s -> exp_value s = exp s.
Proof. intro H. unfold exp_value. rewrite Rleb_false; [reflexivity | lra]. Qed.

Lemma exp_value_below (s : R) : exp s <= float64.tiny -> exp_value s = 0.
Proof. intro H. unfold exp_value. now rewrite Rleb_true. Qed.

Lemma float64_exp_in_range (s : R) :
  exp s < float64.huge -> float64.exp (Fin s) = Fin (exp_value s).
Proof.
  intro H. unfold float64.exp, exp_value.
  destruct (Rleb (exp s) float64.tiny); [reflexivity|].
  rewrite Rleb_false; [reflexivity | lra].
Qed.

Lemma sum_nonneg (l : list R) :
  Forall (fun v => 0 <= v) l -> 0 <= np.sum l.
Proof.
  unfold np.sum. induction 1 as [|h t Hh _ IH]; simpl; lra.
Qed.

Lemma sum_le (f g : R -> R) (l : list R) :
  (forall s, f s <= g s) -> np.sum (map f l) <= np.sum (map g l).
Proof.
  intro H. unfold np.sum. induction l as [|h t IH]; simpl; [lra|].
  specialize (H h). lra.
Qed.

Lemma In_le_sum (f : R -> R) (l : list R) (s : R) :
  (forall v, 0 <= f v) -> In s l -> f s <= np.sum (map f l).
Proof.
  intros Hf. unfold np.sum. induction l as [|h t IH]; intro Hin;
    [destruct Hin|]. destruct Hin as [<-|Hin]; simpl.
  - pose proof (sum_nonneg (map f t)) as Ht. unfold np.sum in Ht.
    assert (0 <= fold_right Rplus 0 (map f t)).
    { apply Ht. apply Forall_forall. intros v Hv. apply in_map_iff in Hv.
      destruct Hv as [w [<- _]]. apply Hf. }
    lra.
  - specialize (IH Hin). specialize (Hf h). lra.
Qed.

Lemma float64_sum_Fin (l : list R) :
  - float64.huge < np.sum l < float64.huge ->
  float64.sum (map Fin l) = Fin (np.sum l).
Proof.
  intros [H1 H2]. unfold float64.sum. rewrite xsum_Fin.
  rewrite !Rleb_false by lra. reflexivity.
Qed.

(** A row whose exponentials stay in range. *)
Lemma posterior_float64_in_range (scores : list R) :
  in_range scores ->
  posterior_float64_spec (map Fin scores)
  = map Fin (posterior_float64_real scores)
    /\ Forall (fun v => 0 <= v) (posterior_float64_real scores)
    /\ np.sum (posterior_float64_real scores) = 1.
Proof.
  intros [[s0 [Hin0 Hs0]] Hsum].
  assert (Hexp : forall v, 0 <= exp v) by (intro v; left; apply exp_pos).
  assert (Hall : forall s, In s scores -> exp s < float64.huge).
  { intros s Hs. pose proof (In_le_sum exp scores s Hexp Hs). lra. }
  assert (HS : 0 < np.sum (map exp_value scores) < float64.huge).
  { split.
    - pose proof (In_le_sum exp_value scores s0 exp_value_nonneg Hin0).
      rewrite (exp_value_above s0 Hs0) in H.
      pose proof tiny_pos. lra.
    - pose proof (sum_le exp_value exp scores exp_value_le). lra. }
  unfold posterior_float64_spec, posterior_float64_real.
  rewrite (map_map Fin float64.exp).
  rewrite (map_ext_in (fun x => float64.exp (Fin x))
             (fun x => Fin (exp_value x)))
    by (intros s Hs; apply float64_exp_in_range, Hall, Hs).
  rewrite <- (map_map exp_value Fin).
  rewrite float64_sum_Fin by (pose proof huge_pos; lra).
  split; [|split].
  - rewrite !map_map. apply map_ext. intro s. cbn [xdiv].
    now rewrite (Rltb_true 0) by lra.
  - apply Forall_forall. intros v Hv. apply in_map_iff in Hv.
    destruct Hv as [s [<- _]].
    apply Rmult_le_pos; [apply exp_value_nonneg|].
    left. apply Rinv_0_lt_compat. lra.
  - rewrite <- (map_map exp_value (fun e => e / np.sum (map exp_value scores))).
    rewrite sum_div. apply Rdiv_diag. lra.
Qed.

(** A row whose scores all underflow: [0/0] in every column. *)
Lemma posterior_float64_all_underflow (scores : list R) :
  all_underflow scores ->
  posterior_float64_spec (map Fin scores) = map (fun _ => NaN) scores.
Proof.
  intro H. unfold posterior_float64_spec. rewrite (map_map Fin float64.exp).
  unfold all_underflow in H. rewrite Forall_forall in H.
  rewrite (map_ext_in (fun x => float64.exp (Fin x)) (fun _ => Fin 0)).
  - assert (Hs : float64.sum (map (fun _ : R => Fin 0) scores) = Fin 0).
    { rewrite <- (map_map (fun _ : R => 0) Fin).
      assert (Hz : np.sum (map (fun _ : R => 0) scores) = 0).
      { unfold np.sum. induction scores as [|h t IH]; simpl; [reflexivity|].
        rewrite IH; [lra|]. intros x Hx. apply H. now right. }
      rewrite float64_sum_Fin; rewrite Hz; [reflexivity|].
      pose proof huge_pos. lra. }
    rewrite Hs, map_map. apply map_ext. intro s. cbn [xdiv].
    now rewrite !Rltb_false by lra.
  - intros s Hs. unfold float64.exp. now rewrite Rleb_true by now apply H.
Qed.

End Float64Range.

Section PredictProbaFloat64.

Lemma Forall2_map_self {A B : Type} (R : A -> B -> Prop) (f : A -> B)
    (l : list A) :
  (forall x, In x l -> R x (f x)) -> Forall2 R l (map f l).
Proof.
  induction l as [|h t IH]; intro H; simpl; constructor.
  - apply H. now left.
  - apply IH. intros x Hx. apply H. now right.
Qed.

Lemma normalize_rows_float64_spec (scores : list (list xreal)) :
  normalize_rows_float64 (map (map float64.exp) scores)
  = map posterior_float64_spec scores.
Proof.
  unfold normalize_rows_float64. rewrite combine_map_self, !map_map.
  apply map_ext. intro row. reflexivity.
Qed.

Variables (a : attrs) (X : array2).
Hypothesis Hwf : wf_array2 X.
Hypothesis Hshape : fitted_shape a (n_cols X).
Hypothesis Hne : uniy a <> [].

(** The scores are those of [predict_proba]; only the last two steps
    differ. *)
Lemma predict_proba_float64_formula :
  predict_proba_float64 (Some a) X
  = Ok (map (fun x =>
               posterior_float64_spec
                 (map (joint_log_likelihood_spec a (n_cols X) x)
                      (seq 0 (length (uniy a)))))
            (rows X)).
Proof.
  unfold predict_proba_float64, np.size.
  rewrite proba_loop_app, (mapM_class_scores a X Hwf Hshape).
  - cbn [bind app].
    destruct (uniy a) as [|c0 u'] eqn:Eu; [congruence|].
    cbn [length seq map]. rewrite <- seq_shift.
    change ((map (fun x => joint_log_likelihood_spec a (n_cols X) x 0)
               (rows X))
            :: map (fun i =>
                      map (fun x =>
                             joint_log_likelihood_spec a (n_cols X) x i)
                          (rows X))
                 (map S (seq 0 (length u'))))
      with (map (fun i =>
                   map (fun x => joint_log_likelihood_spec a (n_cols X) x i)
                       (rows X))
              (0%nat :: map S (seq 0 (length u')))).
    rewrite (transpose_map NaN
               (fun i x => joint_log_likelihood_spec a (n_cols X) x i)).
    now rewrite normalize_rows_float64_spec, map_map.
  - apply Forall_forall. intros i Hi. apply in_seq in Hi. lia.
Qed.

Hypothesis Hprior : Forall (fun p => 0 < p) (proba_y a).
Hypothesis Hsigma : Forall (Forall (fun v => 0 < v)) (sigma a).

Lemma predict_proba_float64_real :
  predict_proba_float64 (Some a) X
  = Ok (map (fun x =>
               posterior_float64_spec
                 (map Fin (map (jll_real a (n_cols X) x)
                               (seq 0 (length (uniy a))))))
            (rows X)).
Proof.
  rewrite predict_proba_float64_formula. f_equal.
  apply map_ext. intro x. f_equal. rewrite map_map.
  apply map_ext_in. intros i Hi. apply in_seq in Hi.
  apply (jll_spec_real a (n_cols X) Hshape Hprior Hsigma). lia.
Qed.

(** Row by row: a distribution when the exponentials stay in range, NaN in
    every column when all of them underflow. *)
Lemma predict_proba_float64_rows :
  exists P,
    predict_proba_float64 (Some a) X = Ok P
    /\ Forall2
         (fun x row =>
            length row = length (uniy a)
            /\ (in_range (map (jll_real a (n_cols X) x)
                              (seq 0 (length (uniy a)))) ->
                exists rs, row = map Fin rs
                           /\ Forall (fun v => 0 <= v) rs
                           /\ np.sum rs = 1)
            /\ (all_underflow (map (jll_real a (n_cols X) x)
                                   (seq 0 (length (uniy a)))) ->
                Forall (fun v => v = NaN) row))
         (rows X) P.
Proof.
  eexists. split; [apply predict_proba_float64_real|].
  apply Forall2_map_self. intros x _. split; [|split].
  - unfold posterior_float64_spec. now rewrite !length_map, length_seq.
  - intro Hr. destruct (posterior_float64_in_range _ Hr) as [E [Hnn Hs]].
    eexists. split; [exact E|]. split; assumption.
  - intro Hu. rewrite (posterior_float64_all_underflow _ Hu).
    apply Forall_forall. intros v Hv. apply in_map_iff in Hv.
    now destruct Hv as [s [<- _]].
Qed.

End PredictProbaFloat64.

(** The scores of the docstring model at the docstring query are of
    ordinary size: their exponentials stay in the range of float64. *)
Lemma scores_doc_bounds (i : nat) :
  (i < 2)%nat ->
  - 20 < jll_real a_doc_explicit 2 [-0.8; -1] i < 3.
Proof.
  intro Hi.
  assert (H3 : 3 < PI) by (pose proof PI2_3_2; lra).
  pose proof PI_4 as H4.
  assert (Hln : forall x, 0 < x -> ln x <= x - 1).
  { intros x Hx. rewrite <- (ln_exp (x - 1)).
    pose proof (exp_ineq1_le (x - 1)) as He.
    destruct (Req_dec x (exp (x - 1))) as [<-|Hne]; [lra|].
    left. apply ln_increasing; lra. }
  assert (L0 : Ropp 1 < ln (1 / 2)).
  { rewrite <- (ln_exp (Ropp 1)). apply ln_increasing; [apply exp_pos|].
    rewrite exp_Ropp. pose proof (exp_ineq1 1) as He.
    assert (/ exp 1 < / 2) by (apply Rinv_lt_contravar; lra).
    lra. }
  assert (L0' : ln (1 / 2) < 0).
  { rewrite <- ln_1. apply ln_increasing; lra. }
  assert (L1 : 0 < ln (PI * (2 / 3)) <= 5 / 3).
  { split.
    - rewrite <- ln_1. apply ln_increasing; lra.
    - pose proof (Hln (PI * (2 / 3))). lra. }
  assert (L2 : Ropp 1 < ln (PI * (2 / 9)) < 0).
  { split.
    - rewrite <- (ln_exp (Ropp 1)). apply ln_increasing; [apply exp_pos|].
      rewrite exp_Ropp. pose proof (exp_ineq1_le 1) as He.
      assert (/ exp 1 <= / 2) by (apply Rinv_le_contravar; lra).
      lra.
    - rewrite <- ln_1. apply ln_increasing; lra. }
  unfold jll_real, np.sum.
  destruct i as [|[|i]]; [| |lia];
    cbn [a_doc_explicit proba_y sigma theta nth seq map fold_right]; lra.
Qed.

Lemma exp_below_3 (s : R) : s < 3 -> exp s < 27.
Proof.
  intro H. apply Rlt_le_trans with (exp 3); [now apply exp_increasing|].
  replace 3 with (1 + (1 + 1)) by lra. rewrite !exp_plus.
  pose proof exp_le_3. pose proof (exp_pos 1). nra.
Qed.

Lemma exp_INR_le (n : nat) : exp (INR n) <= 4 ^ n.
Proof.
  induction n as [|n IH].
  - simpl. rewrite exp_0. lra.
  - rewrite S_INR, exp_plus. cbn [pow].
    pose proof exp_le_3. pose proof (exp_pos 1). pose proof (exp_pos (INR n)).
    rewrite Rmult_comm. apply Rmult_le_compat; lra.
Qed.

Lemma exp_above_minus_20 (s : R) : - 20 < s -> float64.tiny < exp s.
Proof.
  intro H. apply Rle_lt_trans with (exp (- INR 20)).
  - unfold float64.tiny. rewrite exp_Ropp.
    apply Rinv_le_contravar; [apply exp_pos|].
    apply Rle_trans with (4 ^ 20); [apply exp_INR_le|].
    replace 4 with (2 ^ 2) by (simpl; lra). rewrite <- pow_mult.
    apply Rle_pow; [lra | lia].
  - apply exp_increasing. rewrite INR_IZR_INZ. simpl. lra.
Qed.

Lemma huge_above_64 : 64 < float64.huge.
Proof.
  unfold float64.huge.
  assert (H1 : 2 ^ 7 <= 2 ^ 970) by (apply Rle_pow; [lra | lia]).
  assert (H2 : 2 ^ 1024 = 2 ^ 54 * 2 ^ 970)
    by (rewrite <- pow_add; f_equal).
  assert (H3 : 2 <= 2 ^ 54).
  { replace 2 with (2 ^ 1) at 1 by (simpl; lra). apply Rle_pow; [lra | lia]. }
  assert (H4 : 0 < 2 ^ 970) by (apply pow_lt; lra).
  rewrite H2. simpl in H1. nra.
Qed.

Lemma docstring_query_in_range :
  in_range (map (jll_real a_doc_explicit 2 [-0.8; -1]) (seq 0 2)).
Proof.
  pose proof (scores_doc_bounds 0) as B0.
  pose proof (scores_doc_bounds 1) as B1.
  cbn [seq map]. split.
  - eexists. split; [now left|]. apply exp_above_minus_20, B0. lia.
  - unfold np.sum. cbn [map fold_right].
    pose proof (exp_below_3 _ (proj2 (B0 ltac:(lia)))).
    pose proof (exp_below_3 _ (proj2 (B1 ltac:(lia)))).
    pose proof huge_above_64. lra.
Qed.

(** The scores of the docstring model at [[100, 100]]: both far below the
    point where [np.exp] returns 0. *)
Lemma scores_far (i : nat) :
  (i < 2)%nat -> jll_real a_doc_explicit 2 [100; 100] i <= - 1075.
Proof.
  intro Hi.
  assert (H3 : 3 < PI) by (pose proof PI2_3_2; lra).
  assert (L0 : ln (1 / 2) < 0).
  { rewrite <- ln_1. apply ln_increasing; lra. }
  assert (L1 : 0 < ln (PI * (2 / 3))).
  { rewrite <- ln_1. apply ln_increasing; lra. }
  assert (L2 : Ropp 1 < ln (PI * (2 / 9))).
  { rewrite <- (ln_exp (Ropp 1)). apply ln_increasing; [apply exp_pos|].
    rewrite exp_Ropp. pose proof (exp_ineq1_le 1) as He.
    assert (/ exp 1 <= / 2) by (apply Rinv_le_contravar; lra).
    lra. }
  unfold jll_real, np.sum.
  destruct i as [|[|i]]; [| |lia];
    cbn [a_doc_explicit proba_y sigma theta nth seq map fold_right]; lra.
Qed.

(** C6, as stated, fails: the model fitted on the docstring data has
    strictly positive variances, and on the row [[100, 100]], which has the
    training feature count, both exponentials underflow to 0 and
    [predict_proba] returns [0/0 = NaN] in both columns. *)
Lemma predict_proba_row_of_nan_far_from_means :
  exists a : attrs,
    fit None X_doc y_doc = Ok (Some a)
    /\ Forall (Forall (fun v => 0 < v)) (sigma a)
    /\ wf_array2 X_far
    /\ n_cols X_far = n_cols X_doc
    /\ predict_proba_float64 (Some a) X_far = Ok [[NaN; NaN]].
Proof.
  exists a_doc. split; [exact fit_doc|]. rewrite a_doc_values.
  split; [exact a_doc_sigma_pos|].
  split; [unfold wf_array2, X_far; simpl; repeat constructor|].
  split; [reflexivity|].
  rewrite (predict_proba_float64_real a_doc_explicit X_far).
  - change (Ok [posterior_float64_spec
                  (map Fin [jll_real a_doc_explicit 2 [100; 100] 0;
                            jll_real a_doc_explicit 2 [100; 100] 1])]
            = Ok [[NaN; NaN]]).
    rewrite (posterior_float64_all_underflow
               [jll_real a_doc_explicit 2 [100; 100] 0;
                jll_real a_doc_explicit 2 [100; 100] 1]);
      [reflexivity|].
    apply Forall_cons; [|apply Forall_cons; [|apply Forall_nil]];
      apply exp_underflows, scores_far; lia.
  - unfold wf_array2, X_far; simpl. repeat constructor.
  - exact a_doc_shape.
  - discriminate.
  - exact a_doc_prior_pos.
  - exact a_doc_sigma_pos.
Qed.

(** C6, amended.  For every model that [fit] produces from a training set
    with at least one sample and one label per row, if all its stored
    variances are strictly positive then, for every input matrix [X] whose
    rows all have the feature count of the training matrix, [predict_proba]
    returns one row per row of [X] and one column per class, and
    - in a row for which the exponentials of the class scores stay in the
      range of float64 (one of them does not underflow to 0 and their sum
      does not overflow) every entry is a finite non-negative value and the
      entries add up to 1;
    - in a row for which every class score is so low that [np.exp] returns
      0, every entry is [0/0 = NaN]: there is no safeguard. *)
Theorem predict_proba_rows_in_float64_range
    (self : GNB) (Xtrain : array2) (ytrain : list Z) (a : attrs) (X : array2) :
  length (rows Xtrain) = length ytrain ->
  ytrain <> [] ->
  fit self Xtrain ytrain = Ok (Some a) ->
  Forall (Forall (fun v => 0 < v)) (sigma a) ->
  wf_array2 X ->
  n_cols X = n_cols Xtrain ->
  exists P,
    predict_proba_float64 (Some a) X = Ok P
    /\ Forall2
         (fun x row =>
            length row = length (uniy a)
            /\ (in_range (map (jll_real a (n_cols X) x)
                              (seq 0 (length (uniy a)))) ->
                exists rs, row = map Fin rs
                           /\ Forall (fun v => 0 <= v) rs
                           /\ np.sum rs = 1)
            /\ (all_underflow (map (jll_real a (n_cols X) x)
                                   (seq 0 (length (uniy a)))) ->
                Forall (fun v => v = NaN) row))
         (rows X) P.
Proof.
  intros Hlen Hy Hfit Hsg Hwf Hd.
  pose proof (fit_shape self Xtrain ytrain a Hlen Hfit) as Hshape.
  rewrite <- Hd in Hshape.
  apply predict_proba_float64_rows; try assumption.
  - exact (fit_classes_nonempty self Xtrain ytrain a Hlen Hy Hfit).
  - exact (fit_prior_pos self Xtrain ytrain a Hlen Hfit).
Qed.

(** On the docstring model and the docstring query the exponentials are in
    range: the row returned is a distribution. *)
Lemma predict_proba_rows_in_float64_range_witness :
  exists rs : list R,
    predict_proba_float64 (Some a_doc) X_query = Ok [map Fin rs]
    /\ Forall (fun v => 0 <= v) rs
    /\ np.sum rs = 1.
Proof.
  destruct (predict_proba_rows_in_float64_range
              None X_doc y_doc a_doc X_query) as [P [HP HF]].
  - reflexivity.
  - discriminate.
  - exact fit_doc.
  - rewrite a_doc_values. exact a_doc_sigma_pos.
  - exact X_query_wf.
  - reflexivity.
  - change (rows X_query) with [[-0.8; -1]] in HF.
    inversion HF as [|x row l l' [_ [Hin _]] Hrest]; subst.
    inversion Hrest; subst.
    rewrite a_doc_values in Hin.
    destruct (Hin docstring_query_in_range) as [rs [-> [Hpos Hsum]]].
    exists rs. split; [exact HP|]. split; assumption.
Defined.

(** * Further properties of [fit], [predict_proba] and [predict] *)

(** ** Labels returned by [predict] *)

Section PredictedLabels.

Lemma Forall2_map_l {A B C : Type} (R : B -> C -> Prop) (f : A -> B)
    (l : list A) (l' : list C) :
  Forall2 R (map f l) l' <-> Forall2 (fun x => R (f x)) l l'.
Proof.
  revert l'. induction l as [|h t IH]; intros l'; simpl; split; intro H;
    inversion H; subst; constructor; try assumption; now apply IH.
Qed.

Lemma Forall2_Forall_r {A B : Type} (R : A -> B -> Prop) (Q : B -> Prop)
    (l : list A) (l' : list B) :
  (forall x y, R x y -> Q y) -> Forall2 R l l' -> Forall Q l'.
Proof.
  intros HRQ. induction 1; constructor; eauto.
Qed.

Lemma Forall_eq_repeat {A : Type} (c : A) (l : list A) :
  Forall (fun v => v = c) l -> l = repeat c (length l).
Proof.
  induction 1 as [|h t Hh _ IH]; simpl; [reflexivity|]. now rewrite Hh, <- IH.
Qed.

(** Whenever [predict_proba] returns, [predict] returns labels of [uniy]
    and each is chosen by [np.argmax]. *)
Lemma predict_of_proba (a : attrs) (X : array2) (P : list (list xreal)) :
  predict_proba (Some a) X = Ok P ->
  exists labels,
    predict (Some a) X = Ok labels
    /\ Forall2 (fun row label =>
                  exists i, first_max row i
                            /\ nth_error (uniy a) i = Some label)
               P labels.
Proof.
  intro E. destruct (predict_proba_shape a X P E) as [_ [Hrows Hu]].
  destruct (predict_labels (uniy a) P Hu Hrows) as [labels [Hl HF]].
  exists labels. split; [|exact HF]. unfold predict. rewrite E. exact Hl.
Qed.

End PredictedLabels.

(** X1. After [fit] on a training set with at least one sample and one
    label per row, [predict] succeeds on every rectangular input with the
    training feature count, returns one label per row, and every label it
    returns is a label that occurs in the training vector [y]. *)
Theorem predict_returns_training_labels
    (self : GNB) (Xtrain : array2) (ytrain : list Z) (a : attrs) (X : array2) :
  length (rows Xtrain) = length ytrain ->
  ytrain <> [] ->
  fit self Xtrain ytrain = Ok (Some a) ->
  wf_array2 X ->
  n_cols X = n_cols Xtrain ->
  exists labels,
    predict (Some a) X = Ok labels
    /\ length labels = length (rows X)
    /\ Forall (fun label => In label ytrain) labels.
Proof.
  intros Hlen Hy Hfit Hwf Hd.
  pose proof (fit_shape self Xtrain ytrain a Hlen Hfit) as Hshape.
  pose proof (fit_classes_nonempty self Xtrain ytrain a Hlen Hy Hfit) as Hne.
  rewrite <- Hd in Hshape.
  pose proof (predict_proba_formula a X Hwf Hshape Hne) as E.
  destruct (predict_of_proba a X _ E) as [labels [Hp HF]].
  exists labels. split; [exact Hp|]. split.
  - rewrite <- (Forall2_length HF). unfold predict_proba_spec.
    apply length_map.
  - apply (Forall2_Forall_r _ (fun label => In label ytrain) _ _) in HF;
      [exact HF|].
    intros row label [i [_ Hi]]. apply nth_error_In in Hi.
    rewrite (fit_inv self Xtrain ytrain a Hlen Hfit) in Hi. cbn [uniy] in Hi.
    now rewrite unique_In in Hi.
Qed.

Lemma predict_returns_training_labels_witness :
  exists labels,
    predict (Some a_doc) X_query = Ok labels
    /\ length labels = length (rows X_query)
    /\ Forall (fun label => In label y_doc) labels.
Proof.
  apply (predict_returns_training_labels None X_doc y_doc a_doc X_query).
  - reflexivity.
  - discriminate.
  - exact fit_doc.
  - exact X_query_wf.
  - reflexivity.
Defined.

(** ** A training set with a single label *)

Section SingleClass.

Variables (y : list Z) (c : Z).
Hypothesis Hy : y <> [].
Hypothesis Hall : Forall (fun v => v = c) y.

Lemma unique_single : np.unique y = [c].
Proof.
  apply sorted_lt_ext.
  - apply unique_sorted.
  - repeat constructor.
  - intro z. rewrite unique_In. rewrite Forall_forall in Hall. split.
    + intro Hz. left. symmetry. now apply Hall.
    + intros [<-|[]]. destruct y as [|h t]; [congruence|].
      left. apply Hall. now left.
Qed.

Lemma count_occ_single : count_occ Z.eq_dec y c = length y.
Proof.
  clear Hy. revert Hall. generalize y as l.
  induction l as [|h t IH]; intro H; simpl; [reflexivity|].
  inversion H; subst.
  destruct (Z.eq_dec c c); [f_equal; now apply IH | congruence].
Qed.

Lemma class_proba_single : class_proba y c = 1.
Proof.
  unfold class_proba, np.size.
  rewrite count_true_count_occ, count_occ_single.
  apply Rdiv_diag, not_0_INR. destruct y; [congruence | discriminate].
Qed.

End SingleClass.

(** X2. When every training label is the same value [c] (and there is at
    least one sample, one label per row), [fit] stores the single class [c]
    with prior 1; afterwards, on every input on which [predict_proba]
    returns, [predict] returns [c] for every row, whatever the features and
    whatever the stored variances are (also when they are 0 and the
    probability is NaN). *)
Theorem single_class_fit_always_predicts_it
    (self : GNB) (Xtrain : array2) (ytrain : list Z) (c : Z) :
  length (rows Xtrain) = length ytrain ->
  ytrain <> [] ->
  Forall (fun v => v = c) ytrain ->
  exists a : attrs,
    fit self Xtrain ytrain = Ok (Some a)
    /\ uniy a = [c]
    /\ proba_y a = [1]
    /\ forall X P,
         predict_proba (Some a) X = Ok P ->
         predict (Some a) X = Ok (repeat c (length (rows X))).
Proof.
  intros Hlen Hy Hall. eexists. split; [apply (fit_ok self _ _ Hlen)|].
  rewrite (unique_single ytrain c Hy Hall). cbn [uniy proba_y map].
  rewrite (class_proba_single ytrain c Hy Hall).
  split; [reflexivity|]. split; [reflexivity|].
  intros X P E.
  destruct (predict_proba_shape _ X P E) as [HlenP _].
  destruct (predict_of_proba _ X P E) as [labels [Hp HF]].
  rewrite Hp. f_equal. rewrite <- HlenP, (Forall2_length HF).
  apply Forall_eq_repeat.
  apply (Forall2_Forall_r _ (fun v => v = c) _ _) in HF; [exact HF|].
  intros row label [i [_ Hi]]. cbn [uniy] in Hi.
  destruct i as [|i]; simpl in Hi; [congruence|].
  destruct i; discriminate.
Qed.

Lemma single_class_fit_always_predicts_it_witness :
  exists a : attrs,
    fit None (mkArray2 1 [[5]; [5]]) [7; 7]%Z = Ok (Some a)
    /\ uniy a = [7%Z]
    /\ proba_y a = [1]
    /\ forall X P,
         predict_proba (Some a) X = Ok P ->
         predict (Some a) X = Ok (repeat 7%Z (length (rows X))).
Proof.
  apply (single_class_fit_always_predicts_it
           None (mkArray2 1 [[5]; [5]]) [7; 7]%Z 7%Z).
  - reflexivity.
  - discriminate.
  - repeat constructor.
Defined.

(** ** Inputs outside the contract of [predict] *)

(** X3. After [fit] on a training set with at least one sample and one
    label per row, an input whose feature count differs from the training
    one makes [predict_proba] and [predict] fail with the ValueError of the
    subtraction [X - self.theta[i,:]], unless one of the two counts is 1
    (then numpy broadcasts and no error is raised). *)
Theorem predict_feature_mismatch_raises
    (self : GNB) (Xtrain : array2) (ytrain : list Z) (a : attrs) (X : array2) :
  length (rows Xtrain) = length ytrain ->
  ytrain <> [] ->
  fit self Xtrain ytrain = Ok (Some a) ->
  n_cols X <> n_cols Xtrain ->
  n_cols X <> 1%nat ->
  n_cols Xtrain <> 1%nat ->
  predict_proba (Some a) X = Raise ValueError
  /\ predict (Some a) X = Raise ValueError.
Proof.
  intros Hlen Hy Hfit Hd H1 Hd1.
  assert (E : predict_proba (Some a) X = Raise ValueError).
  { apply (predict_proba_feature_mismatch a (n_cols Xtrain) X);
      try assumption.
    - exact (fit_shape self Xtrain ytrain a Hlen Hfit).
    - exact (fit_classes_nonempty self Xtrain ytrain a Hlen Hy Hfit). }
  split; [exact E|]. unfold predict. now rewrite E.
Qed.

Lemma predict_feature_mismatch_raises_witness :
  predict_proba (Some a_doc) (mkArray2 3 [[1; 2; 3]]) = Raise ValueError
  /\ predict (Some a_doc) (mkArray2 3 [[1; 2; 3]]) = Raise ValueError.
Proof.
  apply (predict_feature_mismatch_raises
           None X_doc y_doc a_doc (mkArray2 3 [[1; 2; 3]])).
  - reflexivity.
  - discriminate.
  - exact fit_doc.
  - simpl. lia.
  - simpl. lia.
  - simpl. lia.
Defined.

(** X4. [fit] accepts an empty label vector, but the estimator it returns
    cannot predict: for every [X], [predict_proba] and [predict] fail with
    the ValueError of [np.sum(proba, 1)] on an array without axis 1. *)
Theorem fit_without_samples_cannot_predict
    (self : GNB) (Xtrain X : array2) :
  exists self' : GNB,
    fit self Xtrain [] = Ok self'
    /\ predict_proba self' X = Raise ValueError
    /\ predict self' X = Raise ValueError.
Proof.
  exists (Some empty_attrs). repeat split.
Qed.

(** ** The decision rule of [predict] *)

Section DecisionRule.



End DecisionRule.



(** ** Rows are predicted independently *)

Section Batches.

Lemma mapM_app {A B : Type} (f : A -> result B) (l l' : list A) :
  mapM f (l ++ l')
  = (bs <- mapM f l ;; bs' <- mapM f l' ;; Ok (bs ++ bs')).
Proof.
  induction l as [|h t IH]; simpl.
  - destruct (mapM f l'); reflexivity.
  - destruct (f h) as [b|e]; simpl; [|reflexivity]. rewrite IH.
    destruct (mapM f t) as [bs|e]; simpl; [|reflexivity].
    destruct (mapM f l'); reflexivity.
Qed.

Lemma labels_app (u : list Z) (P P' : list (list xreal)) (l l' : list Z) :
  (idx <- mapM np.argmax P ;; mapM (getitem u) idx) = Ok l ->
  (idx <- mapM np.argmax P' ;; mapM (getitem u) idx) = Ok l' ->
  (idx <- mapM np.argmax (P ++ P') ;; mapM (getitem u) idx) = Ok (l ++ l').
Proof.
  intros H H'. rewrite mapM_app.
  destruct (mapM np.argmax P) as [idx|e]; [|discriminate].
  destruct (mapM np.argmax P') as [idx'|e]; [|discriminate].
  cbn [bind] in *. rewrite mapM_app, H, H'. reflexivity.
Qed.

Lemma predict_proba_spec_vstack (a : attrs) (X X' : array2) :
  n_cols X' = n_cols X ->
  predict_proba_spec a (vstack X X')
  = predict_proba_spec a X ++ predict_proba_spec a X'.
Proof.
  intro Hd. unfold predict_proba_spec, vstack. cbn [rows n_cols].
  now rewrite map_app, Hd.
Qed.

End Batches.

(** X6. After [fit] on a training set with at least one sample and one
    label per row, predicting a batch is predicting its parts: for two
    rectangular inputs [X] and [X'] with the training feature count, the
    results of [predict_proba] and of [predict] on the rows of [X] followed
    by the rows of [X'] are the results on [X] followed by the results on
    [X'].  The output for a row does not depend on the other rows. *)
Theorem predict_on_stacked_inputs
    (self : GNB) (Xtrain : array2) (ytrain : list Z) (a : attrs)
    (X X' : array2) :
  length (rows Xtrain) = length ytrain ->
  ytrain <> [] ->
  fit self Xtrain ytrain = Ok (Some a) ->
  wf_array2 X -> n_cols X = n_cols Xtrain ->
  wf_array2 X' -> n_cols X' = n_cols Xtrain ->
  exists P P' labels labels',
    predict_proba (Some a) X = Ok P
    /\ predict_proba (Some a) X' = Ok P'
    /\ predict_proba (Some a) (vstack X X') = Ok (P ++ P')
    /\ predict (Some a) X = Ok labels
    /\ predict (Some a) X' = Ok labels'
    /\ predict (Some a) (vstack X X') = Ok (labels ++ labels').
Proof.
  intros Hlen Hy Hfit Hwf Hd Hwf' Hd'.
  pose proof (fit_shape self Xtrain ytrain a Hlen Hfit) as Hshape.
  pose proof (fit_classes_nonempty self Xtrain ytrain a Hlen Hy Hfit) as Hne.
  assert (Hdd : n_cols X' = n_cols X) by congruence.
  assert (Hwfs : wf_array2 (vstack X X')).
  { unfold wf_array2, vstack in *. cbn [rows n_cols].
    apply Forall_app. split; [assumption|]. now rewrite <- Hdd. }
  assert (E : predict_proba (Some a) X = Ok (predict_proba_spec a X)).
  { apply predict_proba_formula; try assumption. now rewrite Hd. }
  assert (E' : predict_proba (Some a) X' = Ok (predict_proba_spec a X')).
  { apply predict_proba_formula; try assumption. now rewrite Hd'. }
  assert (Es : predict_proba (Some a) (vstack X X')
               = Ok (predict_proba_spec a X ++ predict_proba_spec a X')).
  { rewrite <- (predict_proba_spec_vstack a X X' Hdd).
    apply predict_proba_formula; try assumption.
    unfold vstack. cbn [n_cols]. now rewrite Hd. }
  destruct (predict_of_proba a X _ E) as [labels [Hp _]].
  destruct (predict_of_proba a X' _ E') as [labels' [Hp' _]].
  exists (predict_proba_spec a X), (predict_proba_spec a X'), labels, labels'.
  repeat (split; [assumption|]).
  unfold predict in *. rewrite Es. rewrite E in Hp. rewrite E' in Hp'.
  cbn [bind] in *. now apply labels_app.
Qed.

Lemma predict_on_stacked_inputs_witness :
  exists P P' labels labels',
    predict_proba (Some a_doc) X_query = Ok P
    /\ predict_proba (Some a_doc) X_doc = Ok P'
    /\ predict_proba (Some a_doc) (vstack X_query X_doc) = Ok (P ++ P')
    /\ predict (Some a_doc) X_query = Ok labels
    /\ predict (Some a_doc) X_doc = Ok labels'
    /\ predict (Some a_doc) (vstack X_query X_doc) = Ok (labels ++ labels').
Proof.
  apply (predict_on_stacked_inputs None X_doc y_doc a_doc X_query X_doc).
  - reflexivity.
  - discriminate.
  - exact fit_doc.
  - exact X_query_wf.
  - reflexivity.
  - exact X_doc_wf.
  - reflexivity.
Defined.

(** ** A class with a zero variance *)

Section ZeroVariance.

Lemma fit_sigma_nonneg (self : GNB) (X : array2) (y : list Z) (a : attrs) :
  wf_array2 X ->
  length (rows X) = length y ->
  fit self X y = Ok (Some a) ->
  Forall (Forall (fun v => 0 <= v)) (sigma a).
Proof.
  intros Hwf Hlen H. rewrite (fit_inv self X y a Hlen H). cbn [sigma].
  apply Forall_forall. intros s Hs. apply in_map_iff in Hs.
  destruct Hs as [c [<- Hc]]. rewrite (class_sigma_spec X y Hlen Hwf c).
  apply Forall_forall. intros v Hv. apply in_map_iff in Hv.
  destruct Hv as [j [<- _]]. apply var_spec_nonneg.
  rewrite unique_In in Hc.
  rewrite <- count_true_indices, count_true_count_occ.
  exact (proj1 (count_occ_In Z.eq_dec y c) Hc).
Qed.

Lemma xsum_fin_or_pinf (l : list xreal) :
  Forall fin_or_pinf l ->
  fin_or_pinf (np.xsum l) /\ (In PInf l -> np.xsum l = PInf).
Proof.
  unfold np.xsum. induction 1 as [|h t Hh _ [IH1 IH2]]; cbn [fold_right].
  - split; [right; now exists 0 | intros []].
  - destruct Hh as [->|[r ->]], IH1 as [E|[r' E]]; rewrite E in *;
      cbn [xadd]; (split; [unfold fin_or_pinf; eauto|]);
      intros [Hin|Hin]; try reflexivity; try discriminate.
    specialize (IH2 Hin). discriminate.
Qed.

Lemma xsum_all_fin (l : list xreal) :
  Forall (fun v => exists r, v = Fin r) l -> exists r, np.xsum l = Fin r.
Proof.
  unfold np.xsum. induction 1 as [|h t [r ->] _ [r' IH]]; cbn [fold_right].
  - now exists 0.
  - rewrite IH. cbn [xadd]. eauto.
Qed.

(** The term of the normalizing sum for one stored variance. *)
Lemma norm_term_pos (v : R) :
  0 < v -> xmul (Fin (-0.5)) (np.log (np.pi * v))
           = Fin (-0.5 * ln (PI * v)).
Proof.
  intro H. unfold np.pi. rewrite log_pos; [reflexivity|].
  apply Rmult_lt_0_compat; [apply PI_RGT_0 | assumption].
Qed.

Lemma norm_term_zero : xmul (Fin (-0.5)) (np.log (np.pi * 0)) = PInf.
Proof.
  unfold np.log. rewrite Rmult_0_r, !Rltb_false by lra.
  cbn [xmul]. unfold inf_times.
  now rewrite Rltb_false, Rltb_true by lra.
Qed.

Variables (a : attrs) (d : nat).
Hypothesis Hshape : fitted_shape a d.
Hypothesis Hprior : Forall (fun p => 0 < p) (proba_y a).
Hypothesis Hsigma : Forall (Forall (fun v => 0 <= v)) (sigma a).

Lemma jll_spec_cases (x : list R) (i : nat) :
  (i < length (uniy a))%nat ->
  (degenerate a i -> joint_log_likelihood_spec a d x i = PInf)
  /\ (~ degenerate a i ->
      exists r, joint_log_likelihood_spec a d x i = Fin r).
Proof.
  intro Hi. destruct Hshape as [_ [Lsg [Lpr [_ Fsg]]]].
  unfold joint_log_likelihood_spec, degenerate.
  rewrite Forall_forall in Hprior, Hsigma, Fsg.
  assert (Hs : In (nth i (sigma a) []) (sigma a)) by (apply nth_In; lia).
  pose proof (Fsg _ Hs) as Ls. pose proof (Hsigma _ Hs) as Hnn.
  rewrite log_pos by (apply Hprior, nth_In; lia).
  set (s := nth i (sigma a) []) in *.
  rewrite <- Ls.
  rewrite <- (map_seq_nth 0 s
                (fun v => xmul (Fin (-0.5)) (np.log (PI * v)))).
  assert (Hterms : Forall fin_or_pinf
                     (map (fun v => xmul (Fin (-0.5)) (np.log (PI * v))) s)).
  { apply Forall_forall. intros w Hw. apply in_map_iff in Hw.
    destruct Hw as [v [<- Hv]]. rewrite Forall_forall in Hnn.
    destruct (Rle_lt_or_eq_dec 0 v (Hnn v Hv)) as [Hpos|<-].
    - right. eexists. apply (norm_term_pos v Hpos).
    - left. apply norm_term_zero. }
  split.
  - intro Hdeg.
    rewrite (proj2 (xsum_fin_or_pinf _ Hterms)); [reflexivity|].
    apply in_map_iff. exists 0. split; [apply norm_term_zero | assumption].
  - intro Hnd.
    destruct (xsum_all_fin
                (map (fun v => xmul (Fin (-0.5)) (np.log (PI * v))) s))
      as [r Hr].
    + apply Forall_forall. intros w Hw. apply in_map_iff in Hw.
      destruct Hw as [v [<- Hv]]. rewrite Forall_forall in Hnn.
      destruct (Rle_lt_or_eq_dec 0 v (Hnn v Hv)) as [Hpos|<-].
      * eexists. apply (norm_term_pos v Hpos).
      * contradiction.
    + rewrite Hr. cbn [xadd xsub xopp]. eauto.
Qed.

End ZeroVariance.

Section Swamped.

Lemma posterior_spec_swamped (scores : list xreal) :
  Forall fin_or_pinf scores -> In PInf scores ->
  posterior_spec scores = map swamped scores.
Proof.
  intros Hall Hin. unfold posterior_spec.
  assert (Hsum : np.xsum (map np.exp scores) = PInf).
  { apply xsum_fin_or_pinf.
    - apply Forall_forall. intros w Hw. apply in_map_iff in Hw.
      destruct Hw as [v [<- Hv]]. rewrite Forall_forall in Hall.
      destruct (Hall v Hv) as [->|[r ->]]; [now left | right].
      now exists (exp r).
    - apply in_map_iff. exists PInf. split; [reflexivity | assumption]. }
  rewrite Hsum, map_map. apply map_ext_in. intros v Hv.
  rewrite Forall_forall in Hall.
  destruct (Hall v Hv) as [->|[r ->]]; reflexivity.
Qed.

Lemma Forall2_Forall_lr {A B : Type} (Q : A -> Prop) (R : A -> B -> Prop)
    (S : B -> Prop) (l : list A) (l' : list B) :
  (forall x y, Q x -> R x y -> S y) ->
  Forall Q l -> Forall2 R l l' -> Forall S l'.
Proof.
  intros H HQ HF. induction HF; inversion HQ; subst; constructor; eauto.
Qed.

Lemma degenerate_dec (a : attrs) (i : nat) :
  {degenerate a i} + {~ degenerate a i}.
Proof. unfold degenerate. apply in_dec, Req_dec_T. Qed.

End Swamped.

Lemma X_const_wf : wf_array2 X_const.
Proof. unfold wf_array2, X_const; simpl. repeat constructor. Defined.

Lemma fit_const : fit None X_const y_const = Ok (Some a_const).
Proof. apply fit_ok. reflexivity. Defined.

Lemma a_const_degenerate :
  (0 < length (uniy a_const))%nat /\ degenerate a_const 0.
Proof.
  split; [simpl; lia|].
  unfold degenerate, a_const. cbn [sigma].
  change (np.unique y_const) with [1; 2]%Z. cbn [map nth].
  unfold class_sigma.
  change (select X_const y_const 1) with [[1; 0]; [1; 2]].
  unfold np.var0, np.mean0, np.column, np.sum, X_const.
  cbn [n_cols seq map nth fold_right length INR combine fst snd].
  left. lra.
Qed.

(** ** [predict] with the range of float64 *)

Section PredictFloat64.






(** Whenever [predict_proba] returns rows of one entry per class,
    [predict] returns labels chosen by [np.argmax]. *)
Lemma predict_float64_of_proba (a : attrs) (X : array2)
    (P : list (list xreal)) :
  uniy a <> [] ->
  predict_proba_float64 (Some a) X = Ok P ->
  Forall (fun row => length row = length (uniy a)) P ->
  exists labels,
    predict_float64 (Some a) X = Ok labels
    /\ Forall2 (fun row label =>
                  exists i, first_max row i
                            /\ nth_error (uniy a) i = Some label)
               P labels.
Proof.
  intros Hu E Hrows.
  destruct (predict_labels (uniy a) P Hu Hrows) as [labels [Hl HF]].
  exists labels. split; [|exact HF]. unfold predict_float64.
  rewrite E. exact Hl.
Qed.

End PredictFloat64.

(** ** A class with a zero variance, with the range of float64 *)

Section Saturated.

Lemma float64_exp_fin_or_pinf (v : xreal) :
  fin_or_pinf v -> fin_or_pinf (float64.exp v).
Proof.
  intros [->|[r ->]]; [now left|]. unfold float64.exp.
  destruct (Rleb (exp r) float64.tiny); [right; now exists 0|].
  destruct (Rleb float64.huge (exp r)); [now left | right; eauto].
Qed.

Lemma posterior_float64_saturated (scores : list xreal) :
  Forall fin_or_pinf scores -> In PInf scores ->
  posterior_float64_spec scores
  = map (fun s => swamped (float64.exp s)) scores.
Proof.
  intros Hall Hin. unfold posterior_float64_spec.
  assert (Hu : Forall fin_or_pinf (map float64.exp scores)).
  { apply Forall_forall. intros w Hw. apply in_map_iff in Hw.
    destruct Hw as [v [<- Hv]]. rewrite Forall_forall in Hall.
    apply float64_exp_fin_or_pinf, Hall, Hv. }
  assert (Hsum : float64.sum (map float64.exp scores) = PInf).
  { unfold float64.sum. rewrite (proj2 (xsum_fin_or_pinf _ Hu));
      [reflexivity|].
    apply in_map_iff. exists PInf. split; [reflexivity | assumption]. }
  rewrite Hsum, map_map. apply map_ext_in. intros s Hs.
  rewrite Forall_forall in Hu.
  destruct (Hu (float64.exp s)) as [->|[r ->]]; try reflexivity.
  apply in_map_iff. now exists s.
Qed.

Lemma saturated_dec (a : attrs) (d : nat) (x : list R) (i : nat) :
  saturated a d x i \/ ~ saturated a d x i.
Proof.
  unfold saturated.
  destruct (float64.exp (joint_log_likelihood_spec a d x i));
    [right | left | right | right]; congruence.
Qed.

End Saturated.

(** X7. After [fit] on a rectangular training set with at least one sample
    and one label per row, if some class has a stored variance equal to 0
    then, with the range of float64 in [np.exp] and in the row sums and on
    every rectangular input with the training feature count: a class
    saturates on a row when its score or the exponential of its score is
    [+inf]; every class with a zero variance saturates on every row; in
    every row [predict_proba] returns NaN for the classes that saturate and
    0 for the others; and [predict] returns the label of the lowest-indexed
    class that saturates, whatever the features of the row are. *)
Theorem zero_variance_class_saturates_predictions
    (self : GNB) (Xtrain : array2) (ytrain : list Z) (a : attrs) (X : array2) :
  wf_array2 Xtrain ->
  length (rows Xtrain) = length ytrain ->
  ytrain <> [] ->
  fit self Xtrain ytrain = Ok (Some a) ->
  (exists i0, (i0 < length (uniy a))%nat /\ degenerate a i0) ->
  wf_array2 X ->
  n_cols X = n_cols Xtrain ->
  exists P labels,
    predict_proba_float64 (Some a) X = Ok P
    /\ predict_float64 (Some a) X = Ok labels
    /\ (forall x i, (i < length (uniy a))%nat -> degenerate a i ->
                    saturated a (n_cols X) x i)
    /\ Forall2 (fun x row =>
                  length row = length (uniy a)
                  /\ forall i v,
                       nth_error row i = Some v ->
                       (saturated a (n_cols X) x i -> v = NaN)
                       /\ (~ saturated a (n_cols X) x i -> v = Fin 0))
               (rows X) P
    /\ Forall2 (fun x label =>
                  exists i,
                    nth_error (uniy a) i = Some label
                    /\ saturated a (n_cols X) x i
                    /\ forall j, (j < i)%nat -> ~ saturated a (n_cols X) x j)
               (rows X) labels.
Proof.
  intros Hwft Hlen Hy Hfit [i0 [Hi0 Hdeg0]] Hwf Hd.
  pose proof (fit_shape self Xtrain ytrain a Hlen Hfit) as Hshape.
  pose proof (fit_prior_pos self Xtrain ytrain a Hlen Hfit) as Hprior.
  pose proof (fit_sigma_nonneg self Xtrain ytrain a Hwft Hlen Hfit) as Hsg.
  pose proof (fit_classes_nonempty self Xtrain ytrain a Hlen Hy Hfit) as Hne.
  rewrite <- Hd in Hshape.
  pose proof (predict_proba_float64_formula a X Hwf Hshape Hne) as E.
  set (scores := fun x => map (joint_log_likelihood_spec a (n_cols X) x)
                              (seq 0 (length (uniy a)))) in *.
  assert (Hcases := jll_spec_cases a (n_cols X) Hshape Hprior Hsg).
  assert (Hdegsat : forall x i, (i < length (uniy a))%nat ->
                                degenerate a i -> saturated a (n_cols X) x i).
  { intros x i Hi Hdg. unfold saturated.
    now rewrite (proj1 (Hcases x i Hi) Hdg). }
  assert (Hrow : forall x,
             posterior_float64_spec (scores x)
             = map (fun s => swamped (float64.exp s)) (scores x)).
  { intro x. apply posterior_float64_saturated.
    - apply Forall_forall. intros w Hw. apply in_map_iff in Hw.
      destruct Hw as [i [<- Hi]]. apply in_seq in Hi.
      destruct (Hcases x i) as [H1 H2]; [lia|].
      destruct (degenerate_dec a i) as [Hdg|Hnd];
        [left; auto | right; auto].
    - apply in_map_iff. exists i0. split.
      + now apply (Hcases x i0 Hi0).
      + apply in_seq. lia. }
  assert (Hentries : forall x,
             length (posterior_float64_spec (scores x)) = length (uniy a)
             /\ forall i v,
                  nth_error (posterior_float64_spec (scores x)) i = Some v ->
                  (saturated a (n_cols X) x i -> v = NaN)
                  /\ (~ saturated a (n_cols X) x i -> v = Fin 0)).
  { intro x. rewrite Hrow. unfold scores.
    split; [now rewrite !length_map, length_seq|].
    intros i v Hv. rewrite map_map, nth_error_map in Hv.
    destruct (nth_error (seq 0 (length (uniy a))) i) as [k|] eqn:Ek;
      [|discriminate].
    assert (Hi : (i < length (seq 0 (length (uniy a))))%nat)
      by (apply nth_error_Some; congruence).
    rewrite length_seq in Hi.
    rewrite (nth_error_nth' _ 0%nat) in Ek by now rewrite length_seq.
    rewrite seq_nth in Ek by assumption. injection Ek as <-.
    injection Hv as <-. unfold saturated.
    assert (Hf : fin_or_pinf
                   (float64.exp (joint_log_likelihood_spec a (n_cols X) x i))).
    { apply float64_exp_fin_or_pinf.
      destruct (Hcases x i Hi) as [H1 H2].
      destruct (degenerate_dec a i) as [Hdg|Hnd];
        [left; auto | right; auto]. }
    destruct Hf as [->|[r ->]]; split; intro H; try reflexivity;
      congruence. }
  destruct (predict_float64_of_proba a X _ Hne E) as [labels [Hp HF]].
  { apply Forall_forall. intros row Hrw. apply in_map_iff in Hrw.
    destruct Hrw as [x [<- _]]. apply Hentries. }
  eexists. exists labels. split; [exact E|]. split; [exact Hp|].
  split; [exact Hdegsat|]. split.
  - apply Forall2_map_self. intros x _. apply Hentries.
  - rewrite Forall2_map_l in HF. revert HF. apply Forall2_impl.
    intros x label [i [[[v [Hv Hmax]] Hfirst] Hi]].
    destruct (Hentries x) as [Lrow Hent]. fold (scores x) in Hv, Hmax, Hfirst.
    assert (Hnan : In NaN (posterior_float64_spec (scores x))).
    { destruct (nth_error (posterior_float64_spec (scores x)) i0)
        as [v0|] eqn:E0.
      - rewrite (proj1 (Hent i0 v0 E0) (Hdegsat x i0 Hi0 Hdeg0)) in E0.
        exact (nth_error_In _ _ E0).
      - apply nth_error_None in E0. lia. }
    assert (Hvn : v = NaN).
    { destruct Hmax as [->|Hmax]; [reflexivity|].
      rewrite Forall_forall in Hmax. specialize (Hmax NaN Hnan).
      discriminate. }
    subst v. exists i. split; [exact Hi|]. split.
    + destruct (saturated_dec a (n_cols X) x i) as [Hs|Hns]; [assumption|].
      pose proof (proj2 (Hent i NaN Hv) Hns). discriminate.
    + intros j Hj Hs. apply (Hfirst j Hj).
      destruct (nth_error (posterior_float64_spec (scores x)) j)
        as [vj|] eqn:Ej.
      * exists vj. split; [exact Ej|]. left.
        exact (proj1 (Hent j vj Ej) Hs).
      * apply nth_error_None in Ej.
        assert (i < length (posterior_float64_spec (scores x)))%nat
          by (apply nth_error_Some; congruence).
        lia.
Qed.

(** *** A class that saturates without a zero variance *)

Lemma exp_overflows (s : R) : 1024 <= s -> float64.huge <= exp s.
Proof.
  intro H. apply Rle_trans with (2 ^ 1024).
  - unfold float64.huge.
    assert (0 < 2 ^ 970) by (apply pow_lt; lra). lra.
  - apply Rle_trans with (exp (INR 1024)); [apply exp_INR_ge|].
    destruct H as [H | <-].
    + left. apply exp_increasing. rewrite INR_IZR_INZ. simpl. lra.
    + right. f_equal. rewrite INR_IZR_INZ. simpl. lra.
Qed.

Lemma float64_exp_overflow (r : R) :
  1024 <= r -> float64.exp (Fin r) = PInf.
Proof.
  intro H. unfold float64.exp.
  pose proof (exp_above_minus_20 r ltac:(lra)).
  rewrite Rleb_false by lra. now rewrite Rleb_true by now apply exp_overflows.
Qed.

Lemma fit_wide : fit None X_wide y_wide = Ok (Some a_wide).
Proof. apply fit_ok. reflexivity. Defined.

Lemma a_wide_values : a_wide = a_wide_explicit.
Proof.
  unfold a_wide, a_wide_explicit.
  change (np.unique y_wide) with [1; 2]%Z. cbn [map].
  unfold class_theta, class_sigma, class_proba.
  change (select X_wide y_wide 1) with [[0]; [60]].
  change (select X_wide y_wide 2) with [[30]].
  change (count_true (eq_mask y_wide 1)) with 2%nat.
  change (count_true (eq_mask y_wide 2)) with 1%nat.
  change (np.size y_wide) with 3%nat.
  f_equal.
  - unfold np.mean0, np.column, np.sum, X_wide.
    cbn [n_cols seq map nth fold_right length INR].
    list_eq; lra.
  - unfold np.var0, np.mean0, np.column, np.sum, X_wide.
    cbn [n_cols seq map nth fold_right length INR combine fst snd].
    list_eq; lra.
  - cbn [INR]. list_eq; lra.
Qed.

(** The score of class 1 at [[25]] is above 1024: its exponential
    overflows, although the variance of class 1 is 900. *)
Lemma wide_class_saturates : saturated a_wide_explicit 1 [25] 0.
Proof.
  assert (H3 : 3 < PI) by (pose proof PI2_3_2; lra).
  pose proof PI_4 as H4.
  assert (L0 : Ropp 1 < ln (2 / 3)).
  { rewrite <- (ln_exp (Ropp 1)). apply ln_increasing; [apply exp_pos|].
    rewrite exp_Ropp. pose proof (exp_ineq1_le 1) as He.
    assert (/ exp 1 <= / 2) by (apply Rinv_le_contravar; lra).
    lra. }
  assert (L1 : ln (PI * 900) < 12).
  { rewrite <- (ln_exp 12). apply ln_increasing; [lra|].
    pose proof (exp_INR_ge 12) as He.
    rewrite INR_IZR_INZ in He. simpl in He. lra. }
  unfold saturated, joint_log_likelihood_spec.
  cbn [a_wide_explicit proba_y sigma theta nth seq map].
  rewrite !log_pos by lra.
  unfold np.xsum, np.sum. cbn [fold_right xmul xadd xsub xopp].
  apply float64_exp_overflow. lra.
Qed.

(** On the model fitted to [X_wide] the class of the single sample has a
    zero variance and the other one has not; at the query [[25]] both
    saturate, every probability is NaN and [predict] returns class 1. *)
Lemma zero_variance_class_saturates_predictions_witness :
  predict_proba_float64 (Some a_wide) X_mid = Ok [[NaN; NaN]]
  /\ predict_float64 (Some a_wide) X_mid = Ok [1%Z]
  /\ ~ degenerate a_wide 0
  /\ degenerate a_wide 1.
Proof.
  assert (D0 : ~ degenerate a_wide 0).
  { rewrite a_wide_values. unfold degenerate. cbn. intros [H|[]]. lra. }
  assert (D1 : degenerate a_wide 1).
  { rewrite a_wide_values. unfold degenerate. cbn. now left. }
  destruct (zero_variance_class_saturates_predictions
              None X_wide y_wide a_wide X_mid)
    as [P [labels [HP [HL [Hsat [HF1 HF2]]]]]].
  - unfold wf_array2, X_wide; simpl. repeat constructor.
  - reflexivity.
  - discriminate.
  - exact fit_wide.
  - exists 1%nat. split; [|exact D1]. rewrite a_wide_values. simpl. lia.
  - unfold wf_array2, X_mid; simpl. repeat constructor.
  - reflexivity.
  - change (rows X_mid) with [[25]] in HF1, HF2.
    change (n_cols X_mid) with 1%nat in HF1, HF2, Hsat.
    assert (S0 : saturated a_wide 1 [25] 0)
      by (rewrite a_wide_values; exact wide_class_saturates).
    assert (S1 : saturated a_wide 1 [25] 1).
    { apply Hsat; [|exact D1]. rewrite a_wide_values. simpl. lia. }
    split; [|split; [|split; assumption]].
    + rewrite HP. f_equal.
      inversion HF1 as [|x1 row t1 t1' [Lrow Hrow] Hnil]; subst.
      inversion Hnil; subst.
      rewrite a_wide_values in Lrow. cbn in Lrow.
      destruct row as [|v0 [|v1 [|v2 row]]]; try discriminate.
      rewrite (proj1 (Hrow 0%nat v0 eq_refl) S0).
      now rewrite (proj1 (Hrow 1%nat v1 eq_refl) S1).
    + rewrite HL. f_equal.
      inversion HF2 as [|x1 label t1 t1' [i [Hi [_ Hfirst]]] Hnil]; subst.
      inversion Hnil; subst.
      destruct i as [|i].
      * rewrite a_wide_values in Hi. cbn in Hi. congruence.
      * exfalso. apply (Hfirst 0%nat); [lia | exact S0].
Defined.

(** ** Translating the features *)

Section Translation.

Lemma add_row_nth (x v : list R) (j : nat) :
  length x = length v -> (j < length x)%nat ->
  nth j (add_row x v) 0 = nth j x 0 + nth j v 0.
Proof.
  intros Hl Hj. unfold add_row.
  rewrite (nth_map_in (fun p => fst p + snd p) _ j (0, 0))
    by (rewrite length_combine; lia).
  now rewrite (combine_nth x v j 0 0 Hl).
Qed.

Lemma add_row_length (x v : list R) :
  length x = length v -> length (add_row x v) = length x.
Proof.
  intro H. unfold add_row. rewrite length_map, length_combine. lia.
Qed.

Lemma add_row_seq (f : nat -> R) (v : list R) :
  add_row (map f (seq 0 (length v))) v
  = map (fun j => f j + nth j v 0) (seq 0 (length v)).
Proof.
  unfold add_row.
  replace (combine (map f (seq 0 (length v))) v)
    with (combine (map f (seq 0 (length v)))
                  (map (fun j => nth j v 0) (seq 0 (length v))))
    by (f_equal; apply (take_seq 0 v)).
  now rewrite combine_map_map, map_map.
Qed.

Lemma sum_map_add_const {A : Type} (f : A -> R) (c : R) (l : list A) :
  np.sum (map (fun k => f k + c) l) = np.sum (map f l) + INR (length l) * c.
Proof.
  unfold np.sum. induction l as [|h t IH]; cbn [map fold_right length].
  - simpl. ring.
  - rewrite IH, S_INR. ring.
Qed.

Variables (X : array2) (y : list Z) (v : list R).
Hypothesis Hwf : wf_array2 X.
Hypothesis Hlen : length (rows X) = length y.
Hypothesis Hv : length v = n_cols X.

Lemma shift_wf : wf_array2 (shift X v).
Proof.
  unfold wf_array2, shift in *. cbn [rows n_cols].
  rewrite Forall_forall in *. intros r Hr. apply in_map_iff in Hr.
  destruct Hr as [x [<- Hx]]. rewrite add_row_length; rewrite (Hwf x Hx);
    congruence.
Qed.

Lemma shift_length : length (rows (shift X v)) = length y.
Proof. unfold shift. cbn [rows]. now rewrite length_map. Qed.

Lemma shift_entry (k j : nat) :
  (k < length y)%nat -> (j < n_cols X)%nat ->
  entry (shift X v) k j = entry X k j + nth j v 0.
Proof.
  intros Hk Hj. unfold entry, shift. cbn [rows].
  rewrite (nth_map_in (fun x => add_row x v) _ k []) by lia.
  pose proof (row_length X y Hlen Hwf k Hk) as Hr.
  apply add_row_nth; rewrite Hr; [congruence | assumption].
Qed.

Lemma shift_mean_spec (c : Z) (j : nat) :
  In c y -> (j < n_cols X)%nat ->
  mean_spec (shift X v) y c j = mean_spec X y c j + nth j v 0.
Proof.
  intros Hc Hj. unfold mean_spec.
  rewrite (map_ext_in (fun k => entry (shift X v) k j)
             (fun k => entry X k j + nth j v 0)).
  - rewrite sum_map_add_const. field. apply not_0_INR.
    rewrite <- count_true_indices, count_true_count_occ.
    pose proof (proj1 (count_occ_In Z.eq_dec y c) Hc). lia.
  - intros k Hk. apply (class_indices_lt X y Hlen) in Hk. now apply shift_entry.
Qed.

Lemma shift_var_spec (c : Z) (j : nat) :
  In c y -> (j < n_cols X)%nat ->
  var_spec (shift X v) y c j = var_spec X y c j.
Proof.
  intros Hc Hj. unfold var_spec. f_equal. f_equal.
  apply map_ext_in. intros k Hk. apply (class_indices_lt X y Hlen) in Hk.
  rewrite shift_entry, shift_mean_spec by tauto. f_equal. ring.
Qed.

Lemma shift_class_theta (c : Z) :
  In c y ->
  class_theta (shift X v) y c = add_row (class_theta X y c) v.
Proof.
  intro Hc.
  rewrite (class_theta_spec (shift X v) y shift_length c).
  rewrite (class_theta_spec X y Hlen c).
  change (n_cols (shift X v)) with (n_cols X). rewrite <- Hv.
  rewrite add_row_seq. apply map_ext_in. intros j Hj. apply in_seq in Hj.
  apply shift_mean_spec; [assumption | lia].
Qed.

Lemma shift_class_sigma (c : Z) :
  In c y ->
  class_sigma (shift X v) y c = class_sigma X y c.
Proof.
  intro Hc.
  rewrite (class_sigma_spec (shift X v) y shift_length shift_wf c).
  rewrite (class_sigma_spec X y Hlen Hwf c).
  change (n_cols (shift X v)) with (n_cols X).
  apply map_ext_in. intros j Hj. apply in_seq in Hj.
  apply shift_var_spec; [assumption | lia].
Qed.

End Translation.

Lemma jll_spec_shift (a a' : attrs) (d : nat) (v x : list R) (i : nat) :
  proba_y a' = proba_y a ->
  sigma a' = sigma a ->
  length x = d -> length v = d ->
  (forall j, (j < d)%nat ->
             nth j (nth i (theta a') []) 0
             = nth j (nth i (theta a) []) 0 + nth j v 0) ->
  joint_log_likelihood_spec a' d (add_row x v) i
  = joint_log_likelihood_spec a d x i.
Proof.
  intros Hp Hs Lx Lv Ht. unfold joint_log_likelihood_spec.
  rewrite Hp, Hs. do 2 f_equal. f_equal. f_equal.
  apply map_ext_in. intros j Hj. apply in_seq in Hj.
  rewrite Ht by lia. rewrite add_row_nth by lia. f_equal. ring.
Qed.

(** X8. Adding one vector [v] to every training row moves the stored means
    by [v] and leaves the classes, the priors and the variances unchanged;
    and the estimator fitted on the translated data gives, on a translated
    input, the probabilities and the labels that the estimator fitted on
    the original data gives on the original input. *)
Theorem fit_predict_translation_invariant
    (self : GNB) (Xtrain : array2) (ytrain : list Z) (v : list R)
    (a a' : attrs) :
  wf_array2 Xtrain ->
  length (rows Xtrain) = length ytrain ->
  ytrain <> [] ->
  length v = n_cols Xtrain ->
  fit self Xtrain ytrain = Ok (Some a) ->
  fit self (shift Xtrain v) ytrain = Ok (Some a') ->
  uniy a' = uniy a
  /\ proba_y a' = proba_y a
  /\ sigma a' = sigma a
  /\ theta a' = map (fun t => add_row t v) (theta a)
  /\ forall X,
       wf_array2 X -> n_cols X = n_cols Xtrain ->
       predict_proba (Some a') (shift X v) = predict_proba (Some a) X
       /\ predict (Some a') (shift X v) = predict (Some a) X.
Proof.
  intros Hwf Hlen Hy Hv Hfit Hfit'.
  pose proof (shift_length Xtrain ytrain v Hlen) as Hlen'.
  pose proof (fit_shape self Xtrain ytrain a Hlen Hfit) as Hshape.
  pose proof (fit_shape self _ ytrain a' Hlen' Hfit') as Hshape'.
  pose proof (fit_classes_nonempty self _ _ a Hlen Hy Hfit) as Hne.
  pose proof (fit_classes_nonempty self _ _ a' Hlen' Hy Hfit') as Hne'.
  change (n_cols (shift Xtrain v)) with (n_cols Xtrain) in Hshape'.
  assert (Hu : uniy a' = uniy a).
  { rewrite (fit_inv self _ _ a Hlen Hfit),
      (fit_inv self _ _ a' Hlen' Hfit'). reflexivity. }
  assert (Hp : proba_y a' = proba_y a).
  { rewrite (fit_inv self _ _ a Hlen Hfit),
      (fit_inv self _ _ a' Hlen' Hfit'). reflexivity. }
  assert (Hs : sigma a' = sigma a).
  { rewrite (fit_inv self _ _ a Hlen Hfit),
      (fit_inv self _ _ a' Hlen' Hfit'). cbn [sigma].
    apply map_ext_in. intros c Hc. rewrite unique_In in Hc.
    now apply shift_class_sigma. }
  assert (Ht : theta a' = map (fun t => add_row t v) (theta a)).
  { rewrite (fit_inv self _ _ a Hlen Hfit),
      (fit_inv self _ _ a' Hlen' Hfit'). cbn [theta]. rewrite map_map.
    apply map_ext_in. intros c Hc. rewrite unique_In in Hc.
    now apply shift_class_theta. }
  repeat (split; [assumption|]).
  intros X HwfX Hd.
  assert (HwfX' : wf_array2 (shift X v)).
  { apply shift_wf; [assumption | congruence]. }
  assert (E : predict_proba (Some a') (shift X v)
              = predict_proba (Some a) X).
  { rewrite (predict_proba_formula a' (shift X v) HwfX')
      by (try assumption; change (n_cols (shift X v)) with (n_cols X);
          now rewrite Hd).
    rewrite (predict_proba_formula a X HwfX) by (try assumption;
                                                now rewrite Hd).
    f_equal. unfold predict_proba_spec, shift. cbn [rows n_cols].
    rewrite map_map, Hu. apply map_ext_in. intros x Hx. f_equal.
    apply map_ext_in. intros i Hi. apply in_seq in Hi.
    unfold wf_array2 in HwfX. rewrite Forall_forall in HwfX.
    apply jll_spec_shift; try assumption.
    - now apply HwfX.
    - congruence.
    - intros j Hj. rewrite Ht.
      destruct Hshape as [Lth [_ [_ [Fth _]]]].
      rewrite (nth_map_in (fun t => add_row t v) _ i []) by lia.
      rewrite Forall_forall in Fth.
      assert (Lt : length (nth i (theta a) []) = n_cols Xtrain)
        by (apply Fth, nth_In; lia).
      apply add_row_nth; rewrite Lt; [congruence | lia]. }
  split; [exact E|]. unfold predict. now rewrite E, Hu.
Qed.

Lemma fit_doc_shift :
  fit None (shift X_doc v_doc) y_doc = Ok (Some a_doc_shift).
Proof. apply fit_ok. reflexivity. Defined.

Lemma fit_predict_translation_invariant_witness :
  uniy a_doc_shift = uniy a_doc
  /\ proba_y a_doc_shift = proba_y a_doc
  /\ sigma a_doc_shift = sigma a_doc
  /\ theta a_doc_shift = map (fun t => add_row t v_doc) (theta a_doc)
  /\ forall X,
       wf_array2 X -> n_cols X = n_cols X_doc ->
       predict_proba (Some a_doc_shift) (shift X v_doc)
       = predict_proba (Some a_doc) X
       /\ predict (Some a_doc_shift) (shift X v_doc) = predict (Some a_doc) X.
Proof.
  apply (fit_predict_translation_invariant None X_doc y_doc v_doc).
  - exact X_doc_wf.
  - reflexivity.
  - discriminate.
  - reflexivity.
  - exact fit_doc.
  - exact fit_doc_shift.
Defined.

(** ** An input with a single column *)

Section SingleColumn.

Lemma mapM_ext_in {A B : Type} (f g : A -> result B) (l : list A) :
  (forall x, In x l -> f x = g x) -> mapM f l = mapM g l.
Proof.
  induction l as [|h t IH]; intro H; simpl; [reflexivity|].
  rewrite (H h) by now left. rewrite IH; [reflexivity|].
  intros x Hx. apply H. now right.
Qed.

Lemma combine_repeat_l {A B : Type} (v : A) (l : list B) :
  combine (repeat v (length l)) l = map (fun b => (v, b)) l.
Proof. induction l as [|h t IH]; simpl; [reflexivity|]. now rewrite IH. Qed.

Lemma sub_row_single (x t : list R) :
  length x = 1%nat -> length t <> 1%nat ->
  sub_row x t = sub_row (repeat (hd 0 x) (length t)) t.
Proof.
  intros Hx Ht. unfold sub_row at 1. rewrite Hx.
  destruct (Nat.eqb_spec 1 (length t)); [congruence|]. cbn [Nat.eqb].
  unfold sub_row. rewrite repeat_length, Nat.eqb_refl.
  now rewrite combine_repeat_l, map_map.
Qed.

Variables (a : attrs) (d : nat) (X : array2).
Hypothesis Hth : Forall (fun t => length t = d) (theta a).
Hypothesis Hd1 : d <> 1%nat.
Hypothesis Hwf : wf_array2 X.
Hypothesis Hcols : n_cols X = 1%nat.

Lemma class_scores_single_column (i : nat) :
  class_scores a X i = class_scores a (tile X d) i.
Proof.
  unfold class_scores, getitem.
  destruct (nth_error (proba_y a) i) as [p|]; [|reflexivity].
  destruct (nth_error (sigma a) i) as [s|]; [|reflexivity].
  destruct (nth_error (theta a) i) as [t|] eqn:Et; [|reflexivity].
  cbn [bind]. rewrite Forall_forall in Hth.
  pose proof (Hth t (nth_error_In _ _ Et)) as Lt.
  unfold broadcast_sub, tile, np.size. cbn [rows n_cols].
  rewrite Hcols, Lt, !Nat.eqb_refl, length_map.
  cbn [Nat.eqb orb]. rewrite orb_true_r. cbn [bind orb].
  rewrite (map_map (fun x => repeat (hd 0 x) d) (fun x => sub_row x t)).
  rewrite (map_ext_in (fun x => sub_row x t)
             (fun x => sub_row (repeat (hd 0 x) d) t)); [reflexivity|].
  intros x Hx. unfold wf_array2 in Hwf. rewrite Forall_forall in Hwf.
  rewrite <- Lt. apply sub_row_single; [|congruence].
  rewrite (Hwf x Hx). exact Hcols.
Qed.

Lemma predict_proba_single_column :
  predict_proba (Some a) X = predict_proba (Some a) (tile X d).
Proof.
  unfold predict_proba. rewrite !proba_loop_app.
  rewrite (mapM_ext_in (class_scores a X) (class_scores a (tile X d)))
    by (intros i _; apply class_scores_single_column).
  unfold tile, np.size. cbn [rows]. now rewrite length_map.
Qed.

End SingleColumn.

(** X9. There is no check of the feature count: after [fit] on a training
    set with at least one sample, one label per row and a feature count
    other than 1, a rectangular input with a single column is accepted, and
    [predict_proba] and [predict] return what they return on the input whose
    rows repeat that single value once per training feature. *)
Theorem single_column_input_is_broadcast
    (self : GNB) (Xtrain : array2) (ytrain : list Z) (a : attrs) (X : array2) :
  length (rows Xtrain) = length ytrain ->
  ytrain <> [] ->
  fit self Xtrain ytrain = Ok (Some a) ->
  n_cols Xtrain <> 1%nat ->
  wf_array2 X ->
  n_cols X = 1%nat ->
  exists P labels,
    predict_proba (Some a) X = Ok P
    /\ predict_proba (Some a) (tile X (n_cols Xtrain)) = Ok P
    /\ predict (Some a) X = Ok labels
    /\ predict (Some a) (tile X (n_cols Xtrain)) = Ok labels.
Proof.
  intros Hlen Hy Hfit Hd1 Hwf Hcols.
  pose proof (fit_shape self Xtrain ytrain a Hlen Hfit) as Hshape.
  pose proof (fit_classes_nonempty self Xtrain ytrain a Hlen Hy Hfit) as Hne.
  assert (Hth : Forall (fun t => length t = n_cols Xtrain) (theta a))
    by apply Hshape.
  pose proof (predict_proba_single_column a (n_cols Xtrain) X
                Hth Hd1 Hwf Hcols) as E.
  assert (Hwft : wf_array2 (tile X (n_cols Xtrain))).
  { unfold wf_array2, tile. cbn [rows n_cols]. apply Forall_forall.
    intros r Hr. apply in_map_iff in Hr. destruct Hr as [x [<- _]].
    apply repeat_length. }
  pose proof (predict_proba_formula a (tile X (n_cols Xtrain)) Hwft
                Hshape Hne) as Et.
  destruct (predict_of_proba a _ _ Et) as [labels [Hp _]].
  exists (predict_proba_spec a (tile X (n_cols Xtrain))), labels.
  split; [now rewrite E|]. split; [exact Et|]. split; [|exact Hp].
  unfold predict in *. now rewrite E.
Qed.

Lemma single_column_input_is_broadcast_witness :
  exists P labels,
    predict_proba (Some a_doc) (mkArray2 1 [[3]]) = Ok P
    /\ predict_proba (Some a_doc) (tile (mkArray2 1 [[3]]) (n_cols X_doc))
       = Ok P
    /\ predict (Some a_doc) (mkArray2 1 [[3]]) = Ok labels
    /\ predict (Some a_doc) (tile (mkArray2 1 [[3]]) (n_cols X_doc))
       = Ok labels.
Proof.
  apply (single_column_input_is_broadcast
           None X_doc y_doc a_doc (mkArray2 1 [[3]])).
  - reflexivity.
  - discriminate.
  - exact fit_doc.
  - simpl. lia.
  - unfold wf_array2; simpl. repeat constructor.
  - reflexivity.
Defined.

(** ** Classes with the same prior and the same variances *)



